(** * Duplicate-vertex detection and mesh compaction

    A shallow embedding of [findDuplicates] and [removeDuplicates] from
    [src/MainApplication/Gui/MainWindow.cpp], and the properties the
    specification states about them.

    Conventions of the embedding.
    - [Scalar] is an IEEE-754 value ([spec_float]); [==] and [<] on scalars
      are [SFeqb] and [SFltb], so [+0 == -0] and nothing equals a NaN.
    - Machine integers are [Z]; every cast of the source ([int(..)],
      [uint(..)], [Index(..)]) is written out with its 32-bit wrap-around.
    - [std::vector] is [list]; element access through [operator[]] is
      checked: an access outside the vector has no defined behaviour in C++
      and yields [None] here.
    - [std::sort] is a parameter of the model, constrained only by the
      contract the C++ standard gives it; [insertion_sort] is one executable
      instance.
    - [#pragma omp parallel for] is a parameter as well: the order in which
      the iterations take effect, any permutation of the iteration space.

    The last parts go beyond the specification: the behaviour of the two
    functions on meshes outside the invariants, and two pieces of their
    callers [onFrameComplete] and [exportCurrentMesh], the frame buffer
    filled from the compacted mesh and the names of the exported files.
    There a stream is a [string], and an integer written to it is its
    decimal text. *)

From Stdlib Require Import ZArith Lia Bool.
From Stdlib Require Import Floats.SpecFloat.
From stdpp Require Import base option list list_numbers sorting.
From Stdlib Require Import Ascii.
From stdpp Require Import strings pretty.

(** ** Scalars and their comparisons *)

Abbreviation Scalar := spec_float (only parsing).

Definition is_nan (a : Scalar) : bool :=
  match a with S754_nan => true | _ => false end.

(** ** Machine integers *)

Definition INT_MAX : Z := 2147483647.

(** [uint( z )] : conversion to a 32-bit unsigned integer. *)
Definition to_uint (z : Z) : Z := (z mod 4294967296)%Z.

(** [int( z )] : conversion to a 32-bit signed integer. *)
Definition to_int (z : Z) : Z := ((z + 2147483648) mod 4294967296 - 2147483648)%Z.

(** Modelled from the spec: the index type [Index] is declared in the
    engine's headers, not in this repository.  It wraps an [int]; the
    distinguished value [Invalid] (the spec's "invalid" entry of a map) is
    [-1], and constructing an index from a negative integer gives
    [Invalid]. *)
Abbreviation Index := Z (only parsing).
Definition Invalid : Index := (-1)%Z.

(** [Index( i )] for an [int] [i]. *)
Definition mkIndex (i : Z) : Index := if (i <? 0)%Z then Invalid else i.

(** [idx == i] for an [Index] [idx] and an unsigned [i], which is converted
    to an index first. *)
Definition Index_eq_uint (idx : Index) (i : Z) : bool := (idx =? mkIndex (to_int i))%Z.

(** ** Vectors, triangles, meshes *)

(** Modelled from the spec: [Vector3] is declared in the engine's headers.
    It is the "3D point" of the data model: three scalar coefficients, read
    with [x()], [y()] and [z()]. *)
Record Vector3 : Type := mkVector3 { x : Scalar; y : Scalar; z : Scalar }.

(** [a == b] on [Vector3]: every coefficient compares equal. *)
Definition Vector3_eq (a b : Vector3) : bool :=
  SFeqb (x a) (x b) && SFeqb (y a) (y b) && SFeqb (z a) (z b).

(** A default-constructed [Vector3]; its coefficients are never read before
    being overwritten when the vertex count fits an [int]. *)
Definition Vector3_default : Vector3 :=
  mkVector3 (S754_zero false) (S754_zero false) (S754_zero false).

(** Modelled from the spec: an element of the index buffer, "a triple of
    vertex indices"; in the engine a vector of three unsigned integers. *)
Record Triangle : Type := mkTriangle { t0 : Z; t1 : Z; t2 : Z }.

(** [t( j )] and [t( j ) = v]. *)
Definition coeff (t : Triangle) (j : Z) : Z :=
  if (j =? 0)%Z then t0 t else if (j =? 1)%Z then t1 t else t2 t.
Definition set_coeff (t : Triangle) (j : Z) (v : Z) : Triangle :=
  if (j =? 0)%Z then mkTriangle v (t1 t) (t2 t)
  else if (j =? 1)%Z then mkTriangle (t0 t) v (t2 t)
  else mkTriangle (t0 t) (t1 t) v.

(** Modelled from the spec: the mesh of the data model, declared in the
    engine's headers: positions, one normal per vertex, and the triangles. *)
Record TriangleMesh : Type := mkTriangleMesh {
  vertices : list Vector3;
  normals : list Vector3;
  m_indices : list Triangle
}.

(** ** Checked vector access *)

(** [v.size()] *)
Definition size {A} (v : list A) : Z := Z.of_nat (length v).

(** Reading [v[i]]. *)
Definition vec_at {A} (v : list A) (i : Z) : option A :=
  if decide (0 ≤ i)%Z then v !! Z.to_nat i else None.

(** Writing [v[i] = a]. *)
Definition vec_set {A} (v : list A) (i : Z) (a : A) : option (list A) :=
  if decide (0 ≤ i < size v)%Z then Some (<[Z.to_nat i := a]> v) else None.

(** ** Loops *)

(** Runs [body] once for every element of [order], threading the state;
    stops at the first fault. *)
Fixpoint for_each {S} (order : list Z) (body : Z → S → option S) (s : S) : option S :=
  match order with
  | [] => Some s
  | i :: rest => s' ← body i s; for_each rest body s'
  end.

(** [for ( i = lo; i < hi; ++i )], for bounds the counter of the source
    can reach without wrapping. *)
Definition for_range {S} (lo hi : Z) (body : Z → S → option S) (s : S) : option S :=
  for_each (seqZ lo (hi - lo)) body s.

(** ** The sort key *)

(** An element of the array that is sorted: a position and the index it had
    in the mesh. *)
Abbreviation VertexEntry := (Vector3 * Index)%type (only parsing).

(** The comparator handed to [std::sort]. *)
Definition vertex_lt (a b : VertexEntry) : bool :=
  if SFeqb (x a.1) (x b.1) then
    if SFeqb (y a.1) (y b.1) then
      if SFeqb (z a.1) (z b.1) then (a.2 <? b.2)%Z
      else SFltb (z a.1) (z b.1)
    else SFltb (y a.1) (y b.1)
  else SFltb (x a.1) (x b.1).

(** ** One executable sort *)

Fixpoint sorted_insert (a : VertexEntry) (l : list VertexEntry) : list VertexEntry :=
  match l with
  | [] => [a]
  | b :: t => if vertex_lt a b then a :: b :: t else b :: sorted_insert a t
  end.

Definition insertion_sort (l : list VertexEntry) : list VertexEntry :=
  foldr sorted_insert [] l.

(** The sequential schedule of a parallel loop of [n] iterations. *)
Definition sequential (n : Z) : list Z := seqZ 0 n.

(** ** The two functions *)

Section Deduplicator.

(** [std::sort( first, last, vertex_lt )] *)
Variable std_sort : list VertexEntry → list VertexEntry.

(** The order in which the iterations [0 .. n-1] of a
    [#pragma omp parallel for] take effect. *)
Variable omp_schedule : Z → list Z.

Definition parallel_for {S} (n : Z) (body : Z → S → option S) (s : S) : option S :=
  for_each (omp_schedule n) body s.

(** First loop of [findDuplicates]: pairs every position with its index. *)
Definition pair_vertices (mesh : TriangleMesh) : option (list VertexEntry) :=
  let numVerts := size (vertices mesh) in
  parallel_for (to_int numVerts)
    (λ i verts,
       v ← vec_at (vertices mesh) (to_uint i);
       vec_set verts (to_uint i) (v, mkIndex i))
    (replicate (Z.to_nat numVerts) (Vector3_default, Invalid)).

(** The walk over the sorted array: the first element is its own
    representative, every later one either takes over the entry of its
    predecessor or is its own representative. *)
Definition chain_duplicates (verts : list VertexEntry) (numVerts : Z)
    (duplicatesMap : list Index) : option (list Index * bool) :=
  first ← vec_at verts 0;
  duplicatesMap ← vec_set duplicatesMap (to_uint first.2) first.2;
  for_range 1 numVerts
    (λ i '(duplicatesMap, hasDuplicates),
       cur ← vec_at verts i;
       prev ← vec_at verts (i - 1);
       if Vector3_eq cur.1 prev.1 then
         d ← vec_at duplicatesMap (to_uint prev.2);
         duplicatesMap ← vec_set duplicatesMap (to_uint cur.2) d;
         Some (duplicatesMap, true)
       else
         duplicatesMap ← vec_set duplicatesMap (to_uint cur.2) cur.2;
         Some (duplicatesMap, hasDuplicates))
    (duplicatesMap, false).

(** [findDuplicates( mesh, duplicatesMap )].  The out-parameter is cleared
    on entry, so only its final content is modelled, next to the returned
    flag. *)
Definition findDuplicates (mesh : TriangleMesh) : option (bool * list Index) :=
  let numVerts := size (vertices mesh) in
  let duplicatesMap := replicate (Z.to_nat numVerts) Invalid in
  verts ← pair_vertices mesh;
  let verts := std_sort verts in
  '(duplicatesMap, hasDuplicates) ← chain_duplicates verts numVerts duplicatesMap;
  Some (hasDuplicates, duplicatesMap).

(** First loop of [removeDuplicates]: the representatives, in their
    original order, and the index each one gets. *)
Definition collect_unique (mesh : TriangleMesh) (duplicatesMap : list Index)
    : option (list Index * list Vector3 * list Vector3) :=
  let numVerts := size (vertices mesh) in
  for_range 0 numVerts
    (λ i '(newIndices, uniqueVertices, uniqueNormals),
       d ← vec_at duplicatesMap i;
       if Index_eq_uint d i then
         newIndices ← vec_set newIndices i (mkIndex (to_int (size uniqueVertices)));
         v ← vec_at (vertices mesh) i;
         n ← vec_at (normals mesh) i;
         Some (newIndices, uniqueVertices ++ [v], uniqueNormals ++ [n])
       else Some (newIndices, uniqueVertices, uniqueNormals))
    (replicate (Z.to_nat numVerts) Invalid, [], []).

(** The three corners of one triangle, rewritten in place. *)
Definition rewrite_triangle (duplicatesMap newIndices : list Index)
    (t : Triangle) : option Triangle :=
  for_range 0 3
    (λ j t,
       let oldIdx := coeff t j in
       d ← vec_at duplicatesMap oldIdx;
       newIdx ← vec_at newIndices (to_uint d);
       Some (set_coeff t j (to_uint newIdx)))
    t.

(** Second loop of [removeDuplicates]: every triangle rewritten. *)
Definition rewrite_indices (duplicatesMap newIndices : list Index)
    (indices : list Triangle) : option (list Triangle) :=
  let numTri := size indices in
  parallel_for (to_int numTri)
    (λ i indices,
       t ← vec_at indices (to_uint i);
       t' ← rewrite_triangle duplicatesMap newIndices t;
       vec_set indices (to_uint i) t')
    indices.

(** Third loop of [removeDuplicates]: the map from old to new indices. *)
Definition fill_vertex_map (duplicatesMap newIndices : list Index) (numVerts : Z)
    (vertexMap : list Index) : option (list Index) :=
  parallel_for (to_int numVerts)
    (λ i vertexMap,
       d ← vec_at duplicatesMap (to_uint i);
       n ← vec_at newIndices (to_uint d);
       vec_set vertexMap (to_uint i) n)
    vertexMap.

(** [removeDuplicates( mesh, vertexMap )]: the mesh and the map after the
    call. *)
Definition removeDuplicates (mesh : TriangleMesh) (vertexMap : list Index)
    : option (TriangleMesh * list Index) :=
  '(_, duplicatesMap) ← findDuplicates mesh;
  let numVerts := size (vertices mesh) in
  '(newIndices, uniqueVertices, uniqueNormals) ← collect_unique mesh duplicatesMap;
  indices ← rewrite_indices duplicatesMap newIndices (m_indices mesh);
  let vertexMap := resize (Z.to_nat numVerts) Invalid vertexMap in
  vertexMap ← fill_vertex_map duplicatesMap newIndices numVerts vertexMap;
  Some (mkTriangleMesh uniqueVertices uniqueNormals indices, vertexMap).

End Deduplicator.

(** ** Vocabulary of the specification *)

(** A position is a point of space: none of its coordinates is a NaN. *)
Definition is_point (v : Vector3) : Prop :=
  is_nan (x v) = false ∧ is_nan (y v) = false ∧ is_nan (z v) = false.

(** The invariants of a mesh before a call: one normal per vertex, and
    every triangle corner names a vertex. *)
Definition corner_ok (n : Z) (t : Triangle) : Prop :=
  (0 ≤ t0 t < n)%Z ∧ (0 ≤ t1 t < n)%Z ∧ (0 ≤ t2 t < n)%Z.

Record mesh_inv (mesh : TriangleMesh) : Prop := {
  inv_normals : length (normals mesh) = length (vertices mesh);
  inv_indices : Forall (corner_ok (size (vertices mesh))) (m_indices mesh)
}.

(** Every vertex position of the mesh is a point. *)
Definition all_points (mesh : TriangleMesh) : Prop := Forall is_point (vertices mesh).

(** The vertex and triangle counts are representable in the [int] loop
    counters of the source. *)
Definition fits_int (mesh : TriangleMesh) : Prop :=
  (size (vertices mesh) ≤ INT_MAX)%Z ∧ (size (m_indices mesh) ≤ INT_MAX)%Z.

(** The side conditions under which the C++ value stands for a mesh of the
    data model, and the calls of the source are defined: the positions are
    points, so that the comparator is a strict weak ordering on them, and
    the counts are within the range of the loop counters. *)
Record representable (mesh : TriangleMesh) : Prop := {
  rep_points : all_points mesh;
  rep_counts : fits_int mesh
}.

(** The array handed to [std::sort]: every position with its index. *)
Definition entries (vs : list Vector3) : list VertexEntry :=
  imap (λ k v, (v, Z.of_nat k)) vs.

(** What the C++ standard asks of a comparator on the values sorted. *)
Record strict_weak_on (l : list VertexEntry) : Prop := {
  swo_irrefl : ∀ a, a ∈ l → vertex_lt a a = false;
  swo_trans : ∀ a b c, a ∈ l → b ∈ l → c ∈ l →
    vertex_lt a b = true → vertex_lt b c = true → vertex_lt a c = true;
  swo_equiv : ∀ a b c, a ∈ l → b ∈ l → c ∈ l →
    vertex_lt a b = false → vertex_lt b a = false →
    vertex_lt b c = false → vertex_lt c b = false →
    vertex_lt a c = false ∧ vertex_lt c a = false
}.

(** "Not after": the relation a sorted range satisfies between any earlier
    and any later element. *)
Definition not_after (a b : VertexEntry) : Prop := vertex_lt b a = false.

(** The contract of [std::sort]: on a range where the comparator is a strict
    weak ordering, the result is a permutation of the range, sorted. *)
Definition sort_contract (srt : list VertexEntry → list VertexEntry) : Prop :=
  ∀ l, strict_weak_on l → srt l ≡ₚ l ∧ StronglySorted not_after (srt l).

(** The contract of a parallel loop: every iteration takes effect once. *)
Definition schedule_contract (sched : Z → list Z) : Prop :=
  ∀ n, sched n ≡ₚ seqZ 0 n.

(** Index of the first vertex whose position equals [v]. *)
Fixpoint first_index (v : Vector3) (vs : list Vector3) : nat :=
  match vs with
  | [] => 0
  | u :: rest => if Vector3_eq u v then 0 else S (first_index v rest)
  end.

(** The duplicate map of the specification: every vertex is sent to the
    first vertex with the same position. *)
Definition duplicates_of (vs : list Vector3) : list Index :=
  (λ v, Z.of_nat (first_index v vs)) <$> vs.

Global Instance Vector3_inhabited : Inhabited Vector3 := populate Vector3_default.

(** The representative the walk assigns to the [k]-th element of the sorted
    array [s]: its own index, unless its position equals that of its
    predecessor, whose representative it then takes over. *)
Fixpoint rep (s : list VertexEntry) (k : nat) : Index :=
  match k with
  | O => (s !!! 0%nat).2
  | S k' => if Vector3_eq (s !!! k).1 (s !!! k').1 then rep s k' else (s !!! k).2
  end.

(** The flag of the specification: some vertex is not the first one with
    its position. *)
Definition has_duplicates (vs : list Vector3) : bool :=
  negb (bool_decide (duplicates_of vs = seqZ 0 (size vs))).

(** Vertex [k] is its own representative in the duplicate map [dm]. *)
Definition own (dm : list Index) (k : nat) : Prop := dm !! k = Some (Z.of_nat k).

Global Instance own_dec dm k : Decision (own dm k).
Proof. unfold own. apply _. Defined.

(** The representatives below [n], in increasing order. *)
Definition representatives (dm : list Index) (n : nat) : list nat :=
  filter (own dm) (seq 0 n).

(** The number of representatives below [r]: the place a representative
    [r] takes in the compacted arrays. *)
Definition rank (dm : list Index) (r : nat) : nat := length (representatives dm r).

(** The compacted version of a per-vertex array: the entries of the
    representatives, in their original order. *)
Definition keep (dm : list Index) (n : nat) (l : list Vector3) : list Vector3 :=
  (λ k, l !!! k) <$> representatives dm n.

(** The vertex remap of the specification: every vertex goes to the place
    of its representative. *)
Definition remap_of (dm : list Index) : list Index :=
  (λ d, Z.of_nat (rank dm (Z.to_nat d))) <$> dm.

(** A triangle with its three corners sent through a remap. *)
Definition renumber (remap : list Index) (t : Triangle) : Triangle :=
  mkTriangle (remap !!! Z.to_nat (t0 t)) (remap !!! Z.to_nat (t1 t))
             (remap !!! Z.to_nat (t2 t)).

(** The compacted mesh of the specification. *)
Definition compacted (mesh : TriangleMesh) : TriangleMesh :=
  let dm := duplicates_of (vertices mesh) in
  let n := length (vertices mesh) in
  mkTriangleMesh (keep dm n (vertices mesh)) (keep dm n (normals mesh))
                 (renumber (remap_of dm) <$> m_indices mesh).

(** Every entry of a duplicate map names a representative. *)
Definition canonical_map (dm : list Index) : Prop :=
  ∀ k d, dm !! k = Some d →
    ∃ r : nat, d = Z.of_nat r ∧ (r < length dm)%nat ∧ own dm r.


(** A second sort, which treats ties the other way round, and a second
    schedule. *)
Definition insertion_sort_rev (l : list VertexEntry) : list VertexEntry :=
  insertion_sort (reverse l).

Definition backwards (n : Z) : list Z := reverse (seqZ 0 n).

(** ** The scenario of the specification *)

Definition f0 : Scalar := S754_zero false.
Definition f1 : Scalar := S754_finite false 8388608 (-23).

Definition scenario_mesh : TriangleMesh :=
  mkTriangleMesh
    [mkVector3 f0 f0 f0; mkVector3 f1 f0 f0; mkVector3 f0 f0 f0; mkVector3 f1 f1 f0]
    [mkVector3 f0 f0 f1; mkVector3 f0 f0 f1; mkVector3 f0 f0 f1; mkVector3 f0 f0 f1]
    [mkTriangle 0 1 2].

Definition scenario_result : TriangleMesh :=
  mkTriangleMesh
    [mkVector3 f0 f0 f0; mkVector3 f1 f0 f0; mkVector3 f1 f1 f0]
    [mkVector3 f0 f0 f1; mkVector3 f0 f0 f1; mkVector3 f0 f0 f1]
    [mkTriangle 0 1 0].

Definition empty_mesh : TriangleMesh := mkTriangleMesh [] [] [].

(** A mesh one of whose positions is no point. *)
Definition nan_mesh : TriangleMesh :=
  mkTriangleMesh
    [mkVector3 f1 f0 f0; mkVector3 S754_nan f0 f0; mkVector3 f1 f0 f0]
    [mkVector3 f0 f0 f1; mkVector3 f0 f0 f1; mkVector3 f0 f0 f1]
    [].


(** ** Vocabulary for the behaviour outside the invariants *)

(** The first vertex of every position has a normal: these are the normals
    [removeDuplicates] reads. *)
Definition normals_cover (mesh : TriangleMesh) : Prop :=
  Forall (λ v, (first_index v (vertices mesh) < length (normals mesh))%nat)
         (vertices mesh).

Global Instance corner_ok_dec n t : Decision (corner_ok n t).
Proof. unfold corner_ok. apply _. Defined.

(** A mesh with fewer normals than vertices, in which the first vertex of
    every position still has one. *)
Definition short_normals_mesh : TriangleMesh :=
  mkTriangleMesh
    [mkVector3 f0 f0 f0; mkVector3 f1 f0 f0; mkVector3 f0 f0 f0]
    [mkVector3 f0 f0 f1; mkVector3 f0 f1 f0]
    [mkTriangle 0 1 2].

(** The meshes on which [removeDuplicates] turns out to have a result: at
    least one vertex, every triangle corner names a vertex, and the first
    vertex of every position has a normal. *)
Definition in_domain (mesh : TriangleMesh) : Prop :=
  vertices mesh ≠ [] ∧
  Forall (corner_ok (size (vertices mesh))) (m_indices mesh) ∧
  normals_cover mesh.

(** The scenario mesh with another normal at vertex 2, whose position is
    that of vertex 0, and with one normal more than it has vertices. *)
Definition renormalled_mesh : TriangleMesh :=
  mkTriangleMesh
    (vertices scenario_mesh)
    [mkVector3 f0 f0 f1; mkVector3 f0 f0 f1; mkVector3 f1 f1 f1; mkVector3 f0 f0 f1;
     mkVector3 f1 f0 f0]
    (m_indices scenario_mesh).

(** ** The frame buffer of [onFrameComplete] *)

(** The value of an arithmetic expression of type [int]: undefined when it
    is outside the range of [int]. *)
Definition int_result (r : Z) : option Z :=
  if decide (- INT_MAX - 1 ≤ r ≤ INT_MAX)%Z then Some r else None.

Section FrameBuffer.

Variable omp_schedule : Z → list Z.

(** The conversion of a [Scalar] coefficient to the [float] of the buffer. *)
Variable to_float : Scalar → Scalar.

(** The loop that fills the frame of the point cache file: the buffer
    [vertices] of [3 * V.size()] floats, value-initialised, receives the
    three coordinates of vertex [i] at [3*i], [3*i+1] and [3*i+2], the
    products and sums being computed in [int].  The counter is an [int] as
    well, and reaches [V.size()] only when that is within its range. *)
Definition fill_frame (V : list Vector3) : option (list Scalar) :=
  if decide (size V ≤ INT_MAX)%Z then
    parallel_for omp_schedule (size V)
      (λ i vertices,
         k ← int_result (3 * i);
         v ← vec_at V i;
         vertices ← vec_set vertices k (to_float (x v));
         k ← int_result (3 * i); k ← int_result (k + 1);
         v ← vec_at V i;
         vertices ← vec_set vertices k (to_float (y v));
         k ← int_result (3 * i); k ← int_result (k + 2);
         v ← vec_at V i;
         vec_set vertices k (to_float (z v)))
      (replicate (Z.to_nat (size V * 3)) (S754_zero false))
  else None.

(** The part of [onFrameComplete] between the copy of the mesh and the
    frame handed to the point cache file: the copy is deduplicated, with an
    empty map to fill, and its vertices are laid out in the buffer.  The
    calls in between write the copy to a file and read its vertex count;
    they leave it as it is. *)
Definition frame_of (std_sort : list VertexEntry → list VertexEntry)
    (mesh : TriangleMesh) : option (TriangleMesh * list Index * list Scalar) :=
  let triMesh := mesh in
  let dupliMap := [] in
  '(triMesh, dupliMap) ← removeDuplicates std_sort omp_schedule triMesh dupliMap;
  let V := vertices triMesh in
  frame ← fill_frame V;
  Some (triMesh, dupliMap, frame).

End FrameBuffer.

(** The coordinates of the vertices one after the other. *)
Definition coordinates (to_float : Scalar → Scalar) (V : list Vector3) : list Scalar :=
  v ← V; [to_float (x v); to_float (y v); to_float (z v)].

(** ** The names of the exported files *)

(** [n] copies of the fill character. *)
Fixpoint fill_string (n : nat) (c : ascii) : string :=
  match n with
  | O => EmptyString
  | S n => String c (fill_string n c)
  end.

(** [<< std::setw( width ) << std::setfill( fill ) << item] for an item
    whose text is [s]: the text is padded on the left up to the width, and
    written as it is when it is wider. *)
Definition padded (width : nat) (fill : ascii) (s : string) : string :=
  fill_string (width - String.length s) fill +:+ s.

(** The file name built by [exportCurrentMesh].  The frame count is a
    counter of the application, declared in its header; it is taken to be
    of an integer type, any one, and is written in decimal ([pretty]). *)
Definition exportCurrentMesh_filename (folder : string) (frameCount : Z) : string :=
  folder +:+ "/radiummesh_" +:+ padded 6 "0" (pretty frameCount).

(** The file name built by [onFrameComplete] for the render object
    [roName]. *)
Definition onFrameComplete_filename (folder roName : string) (frameCount : Z) : string :=
  folder +:+ "/radiummesh_" +:+ roName +:+ "_" +:+ padded 6 "0" (pretty frameCount).

(** A text without its leading zeros. *)
Fixpoint strip_zeros (s : string) : string :=
  match s with
  | String c s' => if decide (c = "0"%char) then strip_zeros s' else s
  | EmptyString => EmptyString
  end.

(** ** Proof automation *)

(** Case analysis on the integer comparisons inside [SFcompare]. *)
Ltac cmp_cases :=
  repeat match goal with
  | |- context [Z.compare ?a ?b] => destruct (Z.compare_spec a b); subst
  | H : context [Z.compare ?a ?b] |- _ => destruct (Z.compare_spec a b); subst
  | |- context [Pos.compare_cont Eq ?a ?b] =>
      change (Pos.compare_cont Eq a b) with (Pos.compare a b);
      destruct (Pos.compare_spec a b); subst
  | H : context [Pos.compare_cont Eq ?a ?b] |- _ =>
      change (Pos.compare_cont Eq a b) with (Pos.compare a b) in H;
      destruct (Pos.compare_spec a b); subst
  end.

Ltac float_cases a := destruct a as [[]|[]| |[] ? ?].

Ltac float_order :=
  unfold SFeqb, SFltb; simpl; try done; intros;
  cmp_cases; simpl in *; try done; try lia; auto.

(** Case analysis on the tests of [own]. *)
Ltac own_cases :=
  repeat case_decide; try done; exfalso;
  repeat match goal with H : _ ∧ _ |- _ => destruct H end;
  first [done | lia | match goal with H : ¬ (_ ∧ _) |- _ => apply H; split; (lia || done) end].


(** * Properties *)

(** ** Comparisons of scalars *)

Lemma SFeqb_refl a : is_nan a = false → SFeqb a a = true.
Proof. float_cases a; float_order. Qed.

Lemma SFeqb_sym a b : SFeqb a b = SFeqb b a.
Proof. float_cases a; float_cases b; float_order. Qed.

Lemma SFeqb_trans a b c : SFeqb a b = true → SFeqb b c = true → SFeqb a c = true.
Proof. float_cases a; float_cases b; float_cases c; float_order. Qed.

Lemma SFeqb_eqb_l a b c : SFeqb a b = true → SFeqb a c = SFeqb b c.
Proof. float_cases a; float_cases b; float_cases c; float_order. Qed.

Lemma SFeqb_eqb_r a b c : SFeqb a b = true → SFeqb c a = SFeqb c b.
Proof. intros. rewrite !(SFeqb_sym c). by apply SFeqb_eqb_l. Qed.

Lemma SFeqb_ltb_l a b c : SFeqb a b = true → SFltb a c = SFltb b c.
Proof. float_cases a; float_cases b; float_cases c; float_order. Qed.

Lemma SFeqb_ltb_r a b c : SFeqb a b = true → SFltb c a = SFltb c b.
Proof. float_cases a; float_cases b; float_cases c; float_order. Qed.

Lemma SFltb_trans a b c : SFltb a b = true → SFltb b c = true → SFltb a c = true.
Proof. float_cases a; float_cases b; float_cases c; float_order. Qed.

Lemma SFltb_irrefl a : SFltb a a = false.
Proof. float_cases a; float_order. Qed.

Lemma SFltb_asym a b : SFltb a b = true → SFltb b a = false.
Proof. float_cases a; float_cases b; float_order. Qed.

Lemma SFltb_not_eqb a b : SFltb a b = true → SFeqb a b = false.
Proof. unfold SFeqb, SFltb. by destruct (SFcompare a b) as [[]|]. Qed.

Lemma SF_trichotomy a b :
  is_nan a = false → is_nan b = false →
  SFeqb a b = true ∨ SFltb a b = true ∨ SFltb b a = true.
Proof. float_cases a; float_cases b; float_order. Qed.

(** ** Equality of positions *)

Lemma Vector3_eq_true a b :
  Vector3_eq a b = true ↔
  SFeqb (x a) (x b) = true ∧ SFeqb (y a) (y b) = true ∧ SFeqb (z a) (z b) = true.
Proof. unfold Vector3_eq. rewrite !andb_true_iff. tauto. Qed.

Lemma Vector3_eq_refl a : is_point a → Vector3_eq a a = true.
Proof. intros (?&?&?). apply Vector3_eq_true. auto using SFeqb_refl. Qed.

Lemma Vector3_eq_sym a b : Vector3_eq a b = Vector3_eq b a.
Proof. unfold Vector3_eq. by rewrite (SFeqb_sym (x a)), (SFeqb_sym (y a)), (SFeqb_sym (z a)). Qed.

Lemma Vector3_eq_trans a b c :
  Vector3_eq a b = true → Vector3_eq b c = true → Vector3_eq a c = true.
Proof.
  rewrite !Vector3_eq_true. intros (?&?&?) (?&?&?).
  repeat split; eapply SFeqb_trans; eauto.
Qed.

Lemma Vector3_eq_congr_r a b c : Vector3_eq a b = true → Vector3_eq c a = Vector3_eq c b.
Proof.
  rewrite Vector3_eq_true. intros (Hx&Hy&Hz). unfold Vector3_eq.
  by rewrite (SFeqb_eqb_r _ _ _ Hx), (SFeqb_eqb_r _ _ _ Hy), (SFeqb_eqb_r _ _ _ Hz).
Qed.

Lemma Vector3_eq_congr_l a b c : Vector3_eq a b = true → Vector3_eq a c = Vector3_eq b c.
Proof. intros. rewrite !(Vector3_eq_sym _ c). by apply Vector3_eq_congr_r. Qed.

(** ** The comparator is a strict weak ordering on points *)

Lemma vertex_lt_irrefl a : vertex_lt a a = false.
Proof.
  unfold vertex_lt. rewrite !SFltb_irrefl, Z.ltb_irrefl.
  by repeat case_match.
Qed.

(** One level of the lexicographic comparison. *)
Lemma lex_level_trans (a b c : Scalar) (rab rbc rac : bool) :
  (rab = true → rbc = true → rac = true) →
  (if SFeqb a b then rab else SFltb a b) = true →
  (if SFeqb b c then rbc else SFltb b c) = true →
  (if SFeqb a c then rac else SFltb a c) = true.
Proof.
  intros Hrest. destruct (SFeqb a b) eqn:Eab.
  - rewrite (SFeqb_eqb_l _ _ c Eab), (SFeqb_ltb_l _ _ c Eab).
    destruct (SFeqb b c); auto.
  - intros Hab. destruct (SFeqb b c) eqn:Ebc.
    + intros _. by rewrite <-(SFeqb_eqb_r _ _ a Ebc), Eab, <-(SFeqb_ltb_r _ _ a Ebc).
    + intros Hbc. pose proof (SFltb_trans _ _ _ Hab Hbc) as Hac.
      by rewrite (SFltb_not_eqb _ _ Hac).
Qed.

Lemma vertex_lt_trans a b c :
  vertex_lt a b = true → vertex_lt b c = true → vertex_lt a c = true.
Proof.
  unfold vertex_lt. do 3 apply lex_level_trans.
  rewrite !Z.ltb_lt. lia.
Qed.

Lemma vertex_lt_asym a b : vertex_lt a b = true → vertex_lt b a = false.
Proof.
  intros Hab. destruct (vertex_lt b a) eqn:Hba; [|done].
  by rewrite <-(vertex_lt_irrefl a), (vertex_lt_trans _ _ _ Hab Hba).
Qed.

(** Two entries at points are incomparable exactly when they have equal
    positions and the same index. *)
Lemma lex_level_incomparable (a b : Scalar) (rab rba : bool) :
  is_nan a = false → is_nan b = false →
  (if SFeqb a b then rab else SFltb a b) = false →
  (if SFeqb b a then rba else SFltb b a) = false →
  SFeqb a b = true ∧ rab = false ∧ rba = false.
Proof.
  intros Ha Hb. rewrite (SFeqb_sym b a).
  destruct (SFeqb a b) eqn:Eab; [done|].
  destruct (SF_trichotomy a b Ha Hb) as [?|[-> | ->]]; congruence.
Qed.

Lemma vertex_lt_incomparable a b :
  is_point a.1 → is_point b.1 →
  vertex_lt a b = false → vertex_lt b a = false →
  Vector3_eq a.1 b.1 = true ∧ a.2 = b.2.
Proof.
  intros (Hax&Hay&Haz) (Hbx&Hby&Hbz). unfold vertex_lt. intros Hab Hba.
  destruct (lex_level_incomparable _ _ _ _ Hax Hbx Hab Hba) as (Ex&Hab'&Hba').
  destruct (lex_level_incomparable _ _ _ _ Hay Hby Hab' Hba') as (Ey&Hab''&Hba'').
  destruct (lex_level_incomparable _ _ _ _ Haz Hbz Hab'' Hba'') as (Ez&Hi&Hi').
  split; [by apply Vector3_eq_true|].
  apply Z.ltb_ge in Hi, Hi'. lia.
Qed.

Lemma vertex_lt_same_position a b :
  Vector3_eq a.1 b.1 = true → vertex_lt a b = (a.2 <? b.2)%Z.
Proof. rewrite Vector3_eq_true. intros (Ex&Ey&Ez). unfold vertex_lt. by rewrite Ex, Ey, Ez. Qed.

Lemma strict_weak_on_points l :
  Forall (λ e, is_point e.1) l → strict_weak_on l.
Proof.
  rewrite Forall_forall. intros Hpt. split.
  - intros. apply vertex_lt_irrefl.
  - intros a b c _ _ _. apply vertex_lt_trans.
  - intros a b c Ha Hb Hc Hab Hba Hbc Hcb.
    destruct (vertex_lt_incomparable a b) as [Eab Iab]; auto.
    destruct (vertex_lt_incomparable b c) as [Ebc Ibc]; auto.
    pose proof (Vector3_eq_trans _ _ _ Eab Ebc) as Eac.
    rewrite (vertex_lt_same_position a c Eac).
    rewrite Vector3_eq_sym in Eac. rewrite (vertex_lt_same_position c a Eac).
    rewrite !Z.ltb_ge. lia.
Qed.

(** An entry lying between two entries of one position has that position. *)
Lemma lex_level_squeeze (p q k : Scalar) (rqp rkq : bool) :
  is_nan p = false → is_nan q = false →
  SFeqb p k = true →
  (if SFeqb q p then rqp else SFltb q p) = false →
  (if SFeqb k q then rkq else SFltb k q) = false →
  SFeqb q p = true ∧ rqp = false ∧ rkq = false.
Proof.
  intros Hp Hq Epk. rewrite <-(SFeqb_eqb_l _ _ q Epk), <-(SFeqb_ltb_l _ _ q Epk).
  rewrite (SFeqb_sym p q). destruct (SFeqb q p) eqn:Eqp; [done|].
  destruct (SF_trichotomy q p Hq Hp) as [?|[-> | ->]]; congruence.
Qed.

Lemma vertex_lt_squeeze p q k :
  is_point p.1 → is_point q.1 →
  Vector3_eq p.1 k.1 = true →
  vertex_lt q p = false → vertex_lt k q = false →
  Vector3_eq q.1 p.1 = true.
Proof.
  intros (Hpx&Hpy&Hpz) (Hqx&Hqy&Hqz). rewrite Vector3_eq_true. intros (Ex&Ey&Ez).
  unfold vertex_lt. intros Hqp Hkq.
  destruct (lex_level_squeeze _ _ _ _ _ Hpx Hqx Ex Hqp Hkq) as (Fx&Hqp'&Hkq').
  destruct (lex_level_squeeze _ _ _ _ _ Hpy Hqy Ey Hqp' Hkq') as (Fy&Hqp''&Hkq'').
  destruct (lex_level_squeeze _ _ _ _ _ Hpz Hqz Ez Hqp'' Hkq'') as (Fz&_&_).
  by apply Vector3_eq_true.
Qed.

(** ** Casts *)

Lemma to_uint_small i : (0 ≤ i ≤ INT_MAX)%Z → to_uint i = i.
Proof. unfold to_uint, INT_MAX. intros. apply Z.mod_small. lia. Qed.

Lemma to_int_small i : (0 ≤ i ≤ INT_MAX)%Z → to_int i = i.
Proof. unfold to_int, INT_MAX. intros. rewrite Z.mod_small; lia. Qed.

Lemma mkIndex_nonneg i : (0 ≤ i)%Z → mkIndex i = i.
Proof. unfold mkIndex. intros. case_match; [|done]. apply Z.ltb_lt in H0. lia. Qed.

(** ** Checked access *)

Lemma vec_at_nat {A} (v : list A) (k : nat) : vec_at v (Z.of_nat k) = v !! k.
Proof. unfold vec_at. rewrite decide_True by lia. by rewrite Nat2Z.id. Qed.

Lemma vec_set_nat {A} (v : list A) (k : nat) (a : A) :
  (k < length v)%nat → vec_set v (Z.of_nat k) a = Some (<[k := a]> v).
Proof. unfold vec_set, size. intros. rewrite decide_True by lia. by rewrite Nat2Z.id. Qed.

(** ** Loop rules *)

(** A loop over any order of iterations, with an invariant that speaks of
    the iterations already done. *)
Lemma for_each_inv_from {S} (I : list Z → S → Prop) (body : Z → S → option S) rest :
  ∀ pre s,
  I pre s →
  (∀ p i q s, pre ++ rest = p ++ i :: q → I p s →
     ∃ s', body i s = Some s' ∧ I (p ++ [i]) s') →
  ∃ s', for_each rest body s = Some s' ∧ I (pre ++ rest) s'.
Proof.
  induction rest as [|i rest IH]; intros pre s Hpre Hstep; simpl.
  - exists s. by rewrite app_nil_r.
  - destruct (Hstep pre i rest s eq_refl Hpre) as (s'&->&Hs'). simpl.
    rewrite (cons_middle i pre rest), app_assoc.
    apply IH; [done|]. intros p j q t. rewrite <-app_assoc. apply Hstep.
Qed.

Lemma for_each_inv {S} (I : list Z → S → Prop) (body : Z → S → option S) order s :
  I [] s →
  (∀ p i q s, order = p ++ i :: q → I p s →
     ∃ s', body i s = Some s' ∧ I (p ++ [i]) s') →
  ∃ s', for_each order body s = Some s' ∧ I order s'.
Proof. intros. by apply (for_each_inv_from I body order []). Qed.

(** A counting loop, with an invariant that speaks of the counter. *)
Lemma for_range_inv {S} (I : Z → S → Prop) (body : Z → S → option S) lo hi s :
  (lo ≤ hi)%Z →
  I lo s →
  (∀ i s, (lo ≤ i < hi)%Z → I i s → ∃ s', body i s = Some s' ∧ I (i + 1)%Z s') →
  ∃ s', for_range lo hi body s = Some s' ∧ I hi s'.
Proof.
  unfold for_range. intros Hle. remember (Z.to_nat (hi - lo)) as k eqn:Hk.
  revert lo s Hle Hk. induction k as [|k IH]; intros lo s Hle Hk Hlo Hstep.
  - assert (lo = hi) as -> by lia. rewrite seqZ_nil by lia. by exists s.
  - rewrite seqZ_cons by lia. simpl.
    destruct (Hstep lo s ltac:(lia) Hlo) as (s'&->&Hs'). simpl.
    replace (Z.pred (hi - lo)) with (hi - Z.succ lo)%Z by lia.
    apply IH; [lia|lia|done|]. intros i t Hi. apply Hstep. lia.
Qed.

(** A parallel loop whose iteration [k] reads and writes cell [k] only. *)
Lemma parallel_for_cells {A} sched (n : nat) (body : Z → list A → option (list A))
    (init target : list A) :
  schedule_contract sched →
  (Z.of_nat n ≤ INT_MAX)%Z →
  length init = n → length target = n →
  (∀ (k : nat) vec a, length vec = n → vec !! k = init !! k → target !! k = Some a →
     body (Z.of_nat k) vec = Some (<[k := a]> vec)) →
  parallel_for sched (to_int (Z.of_nat n)) body init = Some target.
Proof.
  intros Hsched Hn Hinit Htarget Hbody. unfold parallel_for.
  rewrite to_int_small by lia.
  pose proof (Hsched (Z.of_nat n)) as Hperm.
  assert (NoDup (sched (Z.of_nat n))) as Hnodup
    by (rewrite Hperm; apply NoDup_seqZ).
  set (I := λ (pre : list Z) (vec : list A),
    length vec = n ∧
    ∀ k : nat, (Z.of_nat k ∈ pre → vec !! k = target !! k) ∧
               (Z.of_nat k ∉ pre → vec !! k = init !! k)).
  destruct (for_each_inv I body (sched (Z.of_nat n)) init) as (vec&Hrun&Hlen&Hvec).
  - split; [done|]. intros k. split; [|done]. by intros ?%elem_of_nil.
  - intros p i q vec Horder [Hlen Hvec].
    assert (i ∈ seqZ 0 (Z.of_nat n)) as Hi
      by (rewrite <-Hperm, Horder, elem_of_app, elem_of_cons; auto).
    apply elem_of_seqZ in Hi.
    rewrite Horder in Hnodup. apply NoDup_app in Hnodup as (_&Hfresh&_).
    assert (i ∉ p) as Hip
      by (intros Hin; apply (Hfresh i Hin); rewrite elem_of_cons; auto).
    destruct (Z_of_nat_complete i ltac:(lia)) as [k ->].
    destruct (lookup_lt_is_Some_2 target k ltac:(lia)) as [a Ha].
    exists (<[k := a]> vec). split.
    + apply Hbody; [done| |done]. by apply Hvec.
    + split; [by rewrite length_insert|]. intros j. split.
      * intros [Hj|Hj%list_elem_of_singleton]%elem_of_app.
        -- rewrite list_lookup_insert_ne by (intros ->; done). by apply Hvec.
        -- apply Nat2Z.inj in Hj as ->. rewrite list_lookup_insert_eq by lia. done.
      * intros Hj.
        rewrite list_lookup_insert_ne
          by (intros ->; apply Hj; rewrite elem_of_app, list_elem_of_singleton; auto).
        apply Hvec. intros ?. apply Hj. rewrite elem_of_app. auto.
  - rewrite Hrun. f_equal. apply list_eq. intros k.
    destruct (decide (k < n)%nat) as [Hk|Hk].
    + apply Hvec. rewrite Hperm. apply elem_of_seqZ. lia.
    + rewrite !lookup_ge_None_2 by lia. done.
Qed.

(** ** The array that is sorted *)

Lemma entries_lookup vs k :
  entries vs !! k = (λ v, (v, Z.of_nat k)) <$> vs !! k.
Proof. unfold entries. by rewrite list_lookup_imap. Qed.

Lemma length_entries vs : length (entries vs) = length vs.
Proof. apply length_imap. Qed.

Lemma elem_of_entries vs e :
  e ∈ entries vs ↔ ∃ k : nat, vs !! k = Some e.1 ∧ e.2 = Z.of_nat k.
Proof.
  rewrite list_elem_of_lookup. split.
  - intros [k Hk]. rewrite entries_lookup in Hk. exists k.
    destruct (vs !! k); simplify_eq/=. done.
  - intros (k&Hk&Hi). exists k. rewrite entries_lookup, Hk. simpl.
    destruct e; simplify_eq/=. done.
Qed.

Lemma entries_indices vs : (entries vs).*2 = Z.of_nat <$> seq 0 (length vs).
Proof.
  unfold entries. rewrite fmap_imap.
  by rewrite <-(imap_seq_0 vs Z.of_nat).
Qed.

Lemma NoDup_entries_indices vs : NoDup (entries vs).*2.
Proof.
  rewrite entries_indices. apply NoDup_fmap_2; [apply _|apply NoDup_seq].
Qed.

Lemma entries_points vs : Forall is_point vs → Forall (λ e, is_point e.1) (entries vs).
Proof.
  rewrite !Forall_forall. intros Hvs e (k&Hk&_)%elem_of_entries.
  apply Hvs. by eapply list_elem_of_lookup_2.
Qed.

(** The pairing loop builds that array, whatever the schedule. *)
Lemma pair_vertices_run sched mesh :
  schedule_contract sched →
  (size (vertices mesh) ≤ INT_MAX)%Z →
  pair_vertices sched mesh = Some (entries (vertices mesh)).
Proof.
  intros Hsched Hn. unfold pair_vertices, size in *. rewrite Nat2Z.id.
  apply parallel_for_cells; [done|done|by rewrite length_replicate|apply length_entries|].
  intros k vec a Hlen _ Ha.
  rewrite entries_lookup in Ha.
  destruct (vertices mesh !! k) as [v|] eqn:Hv; simplify_eq/=.
  apply lookup_lt_Some in Hv as Hk.
  rewrite to_uint_small, vec_at_nat, Hv by lia. simpl.
  rewrite mkIndex_nonneg by lia. apply vec_set_nat. lia.
Qed.

(** ** Sorted ranges *)

Lemma StronglySorted_lookup {A} (R : relation A) l i j a b :
  StronglySorted R l → (i < j)%nat → l !! i = Some a → l !! j = Some b → R a b.
Proof.
  intros Hl. revert i j. induction Hl as [|c l Hl IH Hc]; intros i j Hij Hi Hj.
  - done.
  - destruct j as [|j]; [lia|]. simpl in Hj. destruct i as [|i]; simplify_eq/=.
    + rewrite Forall_forall in Hc. apply Hc. by eapply list_elem_of_lookup_2.
    + apply (IH i j); [lia|done|done].
Qed.


(** ** The executable sort meets the contract *)

Lemma sorted_insert_perm a l : sorted_insert a l ≡ₚ a :: l.
Proof.
  induction l as [|b l IH]; simpl; [done|].
  case_match; [done|]. rewrite IH. apply Permutation_swap.
Qed.

Lemma insertion_sort_perm l : insertion_sort l ≡ₚ l.
Proof.
  induction l as [|a l IH]; simpl; [done|].
  by rewrite sorted_insert_perm, IH.
Qed.

Lemma sorted_insert_sorted a l :
  StronglySorted not_after l → StronglySorted not_after (sorted_insert a l).
Proof.
  induction 1 as [|b l Hl IH Hb]; simpl.
  - repeat constructor.
  - destruct (vertex_lt a b) eqn:Hab.
    + constructor; [by constructor|]. constructor.
      * by apply vertex_lt_asym.
      * eapply Forall_impl; [exact Hb|]. unfold not_after. intros c Hcb.
        destruct (vertex_lt c a) eqn:Hca; [|done].
        by rewrite (vertex_lt_trans _ _ _ Hca Hab) in Hcb.
    + constructor; [done|]. rewrite sorted_insert_perm. by constructor.
Qed.

Lemma insertion_sort_contract : sort_contract insertion_sort.
Proof.
  intros l _. split; [apply insertion_sort_perm|].
  induction l as [|a l IH]; simpl; [constructor|by apply sorted_insert_sorted].
Qed.

Lemma sequential_contract : schedule_contract sequential.
Proof. by intros n. Qed.

(** ** The first vertex with a given position *)

Lemma first_index_le v vs j u :
  vs !! j = Some u → Vector3_eq u v = true → (first_index v vs ≤ j)%nat.
Proof.
  revert j. induction vs as [|w vs IH]; intros j Hj Hu; [done|]. simpl.
  destruct (Vector3_eq w v) eqn:Hw; [lia|].
  destruct j as [|j]; simplify_eq/=; [congruence|].
  specialize (IH j Hj Hu). lia.
Qed.

Lemma first_index_hit v vs j u :
  vs !! j = Some u → Vector3_eq u v = true →
  ∃ w, vs !! first_index v vs = Some w ∧ Vector3_eq w v = true.
Proof.
  revert j. induction vs as [|w vs IH]; intros j Hj Hu; [done|]. simpl.
  destruct (Vector3_eq w v) eqn:Hw; [by exists w|].
  destruct j as [|j]; simplify_eq/=; [congruence|]. by apply (IH j).
Qed.


Lemma first_index_congr v w vs :
  Vector3_eq v w = true → first_index v vs = first_index w vs.
Proof.
  intros Hvw. induction vs as [|u vs IH]; simpl; [done|].
  by rewrite (Vector3_eq_congr_r _ _ u Hvw), IH.
Qed.

Lemma first_index_self vs j v :
  vs !! j = Some v → is_point v →
  (first_index v vs ≤ j)%nat ∧
  ∃ w, vs !! first_index v vs = Some w ∧ Vector3_eq w v = true.
Proof.
  intros Hj Hv. pose proof (Vector3_eq_refl v Hv) as Hvv.
  eauto using first_index_le, first_index_hit.
Qed.

Lemma first_index_idem vs j v w :
  vs !! j = Some v → is_point v →
  vs !! first_index v vs = Some w → first_index w vs = first_index v vs.
Proof.
  intros Hj Hv Hw. destruct (first_index_self vs j v Hj Hv) as (_&w'&Hw'&Heq).
  simplify_eq. by apply first_index_congr.
Qed.

(** ** The walk over the sorted array *)

Lemma chain_duplicates_run (s : list VertexEntry) (n : nat) :
  length s = n → (0 < n)%nat → (Z.of_nat n ≤ INT_MAX)%Z →
  NoDup s.*2 →
  (∀ e, e ∈ s → (0 ≤ e.2 < Z.of_nat n)%Z) →
  ∃ dm has,
    chain_duplicates s (Z.of_nat n) (replicate n Invalid) = Some (dm, has) ∧
    length dm = n ∧
    (∀ k e, s !! k = Some e → dm !! Z.to_nat e.2 = Some (rep s k)) ∧
    (has = true ↔
     ∃ k, (S k < n)%nat ∧ Vector3_eq (s !!! S k).1 (s !!! k).1 = true).
Proof.
  intros Hlen Hn Hmax Hnd Hrange. unfold chain_duplicates.
  assert (∀ k v i, s !! k = Some (v, i) →
    ∃ j : nat, i = Z.of_nat j ∧ (j < n)%nat) as Hidx.
  { intros k v i He. apply list_elem_of_lookup_2, Hrange in He. simpl in He.
    exists (Z.to_nat i). lia. }
  assert (∀ k k' v v' i, s !! k = Some (v, i) → s !! k' = Some (v', i) → k = k') as Hinj.
  { intros k k' v v' i He He'. apply (NoDup_lookup _ k k' i Hnd);
      rewrite list_lookup_fmap; [by rewrite He|by rewrite He']. }
  destruct (lookup_lt_is_Some_2 s 0) as [[v0 i0] Hfirst]; [lia|].
  change 0%Z with (Z.of_nat 0). rewrite vec_at_nat, Hfirst. simpl.
  destruct (Hidx _ _ _ Hfirst) as (j0&->&Hj0).
  rewrite to_uint_small, vec_set_nat by (rewrite ?length_replicate; lia). simpl.
  set (I := λ (i : Z) (st : list Index * bool),
    length st.1 = n ∧
    (∀ k e, (Z.of_nat k < i)%Z → s !! k = Some e →
       st.1 !! Z.to_nat e.2 = Some (rep s k)) ∧
    (st.2 = true ↔
     ∃ k, (Z.of_nat (S k) < i)%Z ∧
          Vector3_eq (s !!! S k).1 (s !!! k).1 = true)).
  match goal with |- context [for_range _ _ ?b ?st] =>
    destruct (for_range_inv I b 1 (Z.of_nat n) st) as ([dm has]&Hrun&Hl&Hdm&Hhas)
  end.
  - lia.
  - split; [|split]; simpl.
    + by rewrite length_insert, length_replicate.
    + intros k e Hk He. assert (k = 0%nat) as -> by lia. simplify_eq. simpl.
      rewrite Nat2Z.id, list_lookup_insert_eq by (by rewrite length_replicate).
      by rewrite (list_lookup_total_correct _ _ _ Hfirst).
    + split; [done|]. intros (k&?&_). lia.
  - intros i [dm has] Hi (Hl&Hdm&Hhas). simpl in Hl, Hdm, Hhas.
    destruct (Z_of_nat_complete i ltac:(lia)) as [k ->].
    destruct k as [|k]; [lia|].
    destruct (lookup_lt_is_Some_2 s (S k)) as [[vc ic] Hcur]; [lia|].
    destruct (lookup_lt_is_Some_2 s k) as [[vp ip] Hprev]; [lia|].
    replace (Z.of_nat (S k) - 1)%Z with (Z.of_nat k) by lia.
    rewrite !vec_at_nat, Hcur, Hprev. simpl.
    destruct (Hidx _ _ _ Hcur) as (jc&->&Hjc). destruct (Hidx _ _ _ Hprev) as (jp&->&Hjp).
    rewrite !to_uint_small, !vec_at_nat by lia.
    assert (∀ d, ∀ j e, (Z.of_nat j < Z.of_nat (S k) + 1)%Z → s !! j = Some e →
      rep s (S k) = d →
      <[jc := d]> dm !! Z.to_nat e.2 = Some (rep s j)) as Hupd.
    { intros d j [v i] Hj He Hd. simpl. destruct (decide (j = S k)) as [->|Hne].
      - simplify_eq. by rewrite Nat2Z.id, list_lookup_insert_eq by lia.
      - rewrite list_lookup_insert_ne.
        + apply (Hdm j (v, i)); [lia|done].
        + intros Heq. apply Hne.
          destruct (Hidx _ _ _ He) as (j'&->&_). rewrite Nat2Z.id in Heq. subst j'.
          apply (Hinj _ _ _ _ _ He Hcur). }
    assert (rep s (S k) = if Vector3_eq vc vp then rep s k else Z.of_nat jc) as Hrep.
    { simpl. by rewrite (list_lookup_total_correct _ _ _ Hcur),
        (list_lookup_total_correct _ _ _ Hprev). }
    assert (Vector3_eq (s !!! S k).1 (s !!! k).1 = Vector3_eq vc vp) as Hadj.
    { by rewrite (list_lookup_total_correct _ _ _ Hcur),
        (list_lookup_total_correct _ _ _ Hprev). }
    destruct (Vector3_eq vc vp) eqn:Heq.
    + pose proof (Hdm k (vp, Z.of_nat jp) ltac:(lia) Hprev) as Hd. simpl in Hd.
      rewrite Nat2Z.id in Hd. rewrite Hd. simpl.
      rewrite vec_set_nat by lia. simpl. eexists. split; [done|].
      split; [simpl; by rewrite length_insert|]. split; [by eauto|].
      split; [|done]. intros _. exists k. split; [lia|done].
    + rewrite vec_set_nat by lia. simpl. eexists. split; [done|].
      split; [simpl; by rewrite length_insert|]. split; [by eauto|].
      cbn [snd]. rewrite Hhas. split.
      * intros (j&?&?). exists j. split; [lia|done].
      * intros (j&?&Hj). exists j. split; [|done].
        destruct (decide (j = k)) as [->|]; [|lia]. congruence.
  - exists dm, has. simpl in Hl, Hdm, Hhas. split; [done|]. split; [done|]. split.
    + intros k e He. apply Hdm; [|done]. apply lookup_lt_Some in He. lia.
    + rewrite Hhas. split; intros (k&?&?); exists k; (split; [lia|done]).
Qed.

(** ** What the walk computes on a sorted arrangement of the vertices *)

Section SortedEntries.

Variable vs : list Vector3.
Variable s : list VertexEntry.
Hypothesis Hpts : Forall is_point vs.
Hypothesis Hperm : s ≡ₚ entries vs.
Hypothesis Hsorted : StronglySorted not_after s.

Lemma sorted_length : length s = length vs.
Proof. by rewrite Hperm, length_entries. Qed.

Lemma sorted_entry k v i :
  s !! k = Some (v, i) → ∃ j : nat, i = Z.of_nat j ∧ vs !! j = Some v.
Proof.
  intros He. apply list_elem_of_lookup_2 in He. rewrite Hperm in He.
  apply elem_of_entries in He as (j&?&?). by exists j.
Qed.

Lemma sorted_point k v i : s !! k = Some (v, i) → is_point v.
Proof.
  intros (j&_&Hj)%sorted_entry. rewrite Forall_forall in Hpts.
  apply Hpts. by eapply list_elem_of_lookup_2.
Qed.

Lemma sorted_find j v : vs !! j = Some v → ∃ k, s !! k = Some (v, Z.of_nat j).
Proof.
  intros Hj. apply list_elem_of_lookup. rewrite Hperm.
  apply elem_of_entries. by exists j.
Qed.

Lemma sorted_nodup : NoDup s.*2.
Proof. rewrite Hperm. apply NoDup_entries_indices. Qed.

Lemma sorted_inj k k' v v' i : s !! k = Some (v, i) → s !! k' = Some (v', i) → k = k'.
Proof.
  intros He He'. apply (NoDup_lookup _ k k' i sorted_nodup);
    rewrite list_lookup_fmap; [by rewrite He|by rewrite He'].
Qed.

Lemma sorted_order k k' a b :
  (k ≤ k')%nat → s !! k = Some a → s !! k' = Some b → vertex_lt b a = false.
Proof.
  intros Hk Ha Hb. destruct (decide (k = k')) as [->|].
  - simplify_eq. apply vertex_lt_irrefl.
  - apply (StronglySorted_lookup not_after s k k' a b); [done|lia|done|done].
Qed.

(** An element whose position differs from its predecessor's is the first
    vertex of the mesh with that position. *)
Lemma first_here k v (j : nat) :
  s !! k = Some (v, Z.of_nat j) →
  (∀ k' vp ip, k = S k' → s !! k' = Some (vp, ip) → Vector3_eq v vp = false) →
  first_index v vs = j.
Proof.
  intros He Hprev. pose proof (sorted_point _ _ _ He) as Hv.
  destruct (sorted_entry _ _ _ He) as (j'&Hj'&Hj). apply Nat2Z.inj in Hj' as <-.
  destruct (first_index_self vs j v Hj Hv) as (Hle&w&Hw&Hwv).
  destruct (decide (first_index v vs = j)) as [|Hne]; [done|exfalso].
  destruct (sorted_find _ _ Hw) as [p Hp].
  pose proof (sorted_point _ _ _ Hp) as Hwpt.
  assert (vertex_lt (w, Z.of_nat (first_index v vs)) (v, Z.of_nat j) = true) as Hlt.
  { rewrite vertex_lt_same_position by done. simpl. apply Z.ltb_lt. lia. }
  destruct (decide (k ≤ p)%nat) as [Hkp|Hkp].
  { by rewrite (sorted_order k p _ _ Hkp He Hp) in Hlt. }
  destruct k as [|k']; [lia|].
  destruct (lookup_lt_is_Some_2 s k') as [[vp ip] Hq].
  { apply lookup_lt_Some in He. lia. }
  pose proof (sorted_point _ _ _ Hq) as Hvp.
  pose proof (sorted_order p k' _ _ ltac:(lia) Hp Hq) as Hqp.
  pose proof (sorted_order k' (S k') _ _ ltac:(lia) Hq He) as Hkq.
  pose proof (vertex_lt_squeeze (w, Z.of_nat (first_index v vs)) (vp, ip)
    (v, Z.of_nat j) Hwpt Hvp Hwv Hqp Hkq) as Hsq. simpl in Hsq.
  pose proof (Vector3_eq_trans _ _ _ Hsq Hwv) as Hc.
  rewrite Vector3_eq_sym, (Hprev k' vp ip eq_refl Hq) in Hc. done.
Qed.

(** The walk sends every element to the first vertex with its position. *)
Lemma rep_first_index k v i :
  s !! k = Some (v, i) → rep s k = Z.of_nat (first_index v vs).
Proof.
  revert v i. induction k as [|k IH]; intros v i He.
  - simpl. rewrite (list_lookup_total_correct _ _ _ He). simpl.
    destruct (sorted_entry _ _ _ He) as (j&->&_).
    by rewrite (first_here 0 v j He).
  - destruct (lookup_lt_is_Some_2 s k) as [[vp ip] Hq].
    { apply lookup_lt_Some in He. lia. }
    simpl. rewrite (list_lookup_total_correct _ _ _ He),
      (list_lookup_total_correct _ _ _ Hq). simpl.
    destruct (Vector3_eq v vp) eqn:Heq.
    + rewrite (IH _ _ Hq). by rewrite (first_index_congr v vp).
    + destruct (sorted_entry _ _ _ He) as (j&->&_).
      rewrite (first_here (S k) v j He); [done|].
      intros k' vp' ip' [= <-] Hq'. by simplify_eq.
Qed.

(** Two neighbours with one position: the later one is not the first
    vertex with that position. *)
Lemma neighbour_not_first k vc vp ic ip :
  s !! S k = Some (vc, ic) → s !! k = Some (vp, ip) →
  Vector3_eq vc vp = true →
  (Z.of_nat (first_index vc vs) < ic)%Z.
Proof.
  intros Hc Hp Heq.
  destruct (sorted_entry _ _ _ Hc) as (jc&->&Hjc).
  destruct (sorted_entry _ _ _ Hp) as (jp&->&Hjp).
  pose proof (sorted_order k (S k) _ _ ltac:(lia) Hp Hc) as Hord.
  rewrite vertex_lt_same_position in Hord by done. simpl in Hord.
  apply Z.ltb_ge in Hord.
  assert (jp ≠ jc).
  { intros ->. pose proof (sorted_inj _ _ _ _ _ Hp Hc). lia. }
  rewrite (first_index_congr vc vp) by done.
  pose proof (first_index_le vp vs jp vp Hjp
    (Vector3_eq_refl _ (sorted_point _ _ _ Hp))). lia.
Qed.

(** Without such neighbours every element is its own representative. *)
Lemma rep_self k v i :
  (∀ k', (S k' < length s)%nat →
     Vector3_eq (s !!! S k').1 (s !!! k').1 = false) →
  s !! k = Some (v, i) → rep s k = i.
Proof.
  intros Hno He. destruct k as [|k]; simpl.
  - by rewrite (list_lookup_total_correct _ _ _ He).
  - rewrite Hno by (by apply lookup_lt_Some in He).
    by rewrite (list_lookup_total_correct _ _ _ He).
Qed.

End SortedEntries.

(** ** [findDuplicates] computes the duplicate map of the specification *)

Lemma duplicates_of_lookup vs k :
  duplicates_of vs !! k = (λ v, Z.of_nat (first_index v vs)) <$> vs !! k.
Proof. unfold duplicates_of. by rewrite list_lookup_fmap. Qed.

Lemma length_duplicates_of vs : length (duplicates_of vs) = length vs.
Proof. unfold duplicates_of. by rewrite length_fmap. Qed.

Lemma findDuplicates_run srt sched mesh :
  sort_contract srt → schedule_contract sched →
  all_points mesh → vertices mesh ≠ [] →
  (size (vertices mesh) ≤ INT_MAX)%Z →
  findDuplicates srt sched mesh =
    Some (has_duplicates (vertices mesh), duplicates_of (vertices mesh)).
Proof.
  intros Hsrt Hsched Hpts Hne Hmax. unfold findDuplicates.
  rewrite pair_vertices_run by done. simpl.
  set (vs := vertices mesh) in *. set (s := srt (entries vs)).
  destruct (Hsrt (entries vs)) as [Hperm Hsorted].
  { apply strict_weak_on_points. by apply entries_points. }
  fold s in Hperm, Hsorted.
  pose proof (sorted_length vs s Hperm) as Hlen.
  assert (0 < length vs)%nat as Hpos by (destruct vs; [done|simpl; lia]).
  unfold size in *. rewrite Nat2Z.id.
  destruct (chain_duplicates_run s (length vs)) as (dm&has&->&Hdl&Hdm&Hhas);
    [done|done|done|by apply (sorted_nodup vs)|..].
  { intros [v i] He. apply list_elem_of_lookup in He as [k Hk].
    destruct (sorted_entry vs s Hperm _ _ _ Hk) as (j&->&Hj).
    apply lookup_lt_Some in Hj. simpl. lia. }
  simpl. assert (dm = duplicates_of vs) as ->.
  { apply list_eq. intros j. rewrite duplicates_of_lookup.
    destruct (vs !! j) as [v|] eqn:Hj; simpl.
    - destruct (sorted_find vs s Hperm _ _ Hj) as [k Hk].
      rewrite <-(rep_first_index vs s Hpts Hperm Hsorted k v _ Hk).
      specialize (Hdm _ _ Hk). simpl in Hdm. by rewrite Nat2Z.id in Hdm.
    - apply lookup_ge_None. apply lookup_ge_None in Hj. lia. }
  do 2 f_equal. unfold has_duplicates, size.
  destruct has.
  - destruct Hhas as [(k&Hk&Hadj) _]; [done|].
    destruct (lookup_lt_is_Some_2 s (S k)) as [[vc ic] Hc]; [lia|].
    destruct (lookup_lt_is_Some_2 s k) as [[vp ip] Hp]; [lia|].
    rewrite (list_lookup_total_correct _ _ _ Hc),
      (list_lookup_total_correct _ _ _ Hp) in Hadj. simpl in Hadj.
    pose proof (neighbour_not_first vs s Hpts Hperm Hsorted _ _ _ _ _ Hc Hp Hadj) as Hlt.
    destruct (sorted_entry vs s Hperm _ _ _ Hc) as (jc&->&Hjc).
    rewrite bool_decide_eq_false_2; [done|]. intros Heq.
    pose proof (duplicates_of_lookup vs jc) as Hl. rewrite Heq, Hjc in Hl. simpl in Hl.
    rewrite lookup_seqZ_lt in Hl by (apply lookup_lt_Some in Hjc; lia).
    simplify_eq. lia.
  - rewrite bool_decide_eq_true_2; [done|].
    assert (∀ k', (S k' < length s)%nat →
      Vector3_eq (s !!! S k').1 (s !!! k').1 = false) as Hno.
    { intros k' Hk'. destruct (Vector3_eq _ _) eqn:Heq; [|done].
      destruct Hhas as [_ Hhas]. rewrite Hhas; [done|]. exists k'. split; [lia|done]. }
    apply list_eq. intros j. rewrite duplicates_of_lookup.
    destruct (vs !! j) as [v|] eqn:Hj; simpl.
    + rewrite lookup_seqZ_lt by (apply lookup_lt_Some in Hj; lia).
      destruct (sorted_find vs s Hperm _ _ Hj) as [k Hk].
      rewrite <-(rep_first_index vs s Hpts Hperm Hsorted k v _ Hk).
      by rewrite (rep_self s k v _ Hno Hk).
    + rewrite lookup_seqZ_ge; [done|]. apply lookup_ge_None in Hj. lia.
Qed.

(** ** Representatives and their places *)

Lemma representatives_S dm n :
  representatives dm (S n) =
  representatives dm n ++ (if decide (own dm n) then [n] else []).
Proof.
  unfold representatives. rewrite seq_S, filter_app. f_equal.
Qed.

Lemma elem_of_representatives dm n r :
  r ∈ representatives dm n ↔ own dm r ∧ (r < n)%nat.
Proof.
  unfold representatives. rewrite list_elem_of_filter, elem_of_seq. intuition lia.
Qed.

Lemma representatives_split dm n r :
  own dm r → (r < n)%nat →
  ∃ rest, representatives dm n = representatives dm r ++ r :: rest.
Proof.
  intros Hr Hlt. induction n as [|n IH]; [lia|].
  rewrite representatives_S. destruct (decide (r = n)) as [->|Hne].
  - rewrite decide_True by done. by exists [].
  - destruct IH as [rest ->]; [lia|]. rewrite <-app_assoc. simpl. eauto.
Qed.

Lemma rank_le dm n : (rank dm n ≤ n)%nat.
Proof.
  unfold rank, representatives.
  etrans; [apply length_filter|]. by rewrite length_seq.
Qed.

Lemma rank_lt dm n r : own dm r → (r < n)%nat → (rank dm r < rank dm n)%nat.
Proof.
  intros Hr Hlt. destruct (representatives_split dm n r Hr Hlt) as [rest Hrest].
  unfold rank. rewrite Hrest, length_app. simpl. lia.
Qed.

Lemma length_keep dm n l : length (keep dm n l) = rank dm n.
Proof. unfold keep. by rewrite length_fmap. Qed.

Lemma keep_S dm n l :
  keep dm (S n) l = keep dm n l ++ (if decide (own dm n) then [l !!! n] else []).
Proof.
  unfold keep. rewrite representatives_S, fmap_app. by case_decide.
Qed.

Lemma keep_lookup dm n l r :
  own dm r → (r < n)%nat → keep dm n l !! rank dm r = Some (l !!! r).
Proof.
  intros Hr Hlt. destruct (representatives_split dm n r Hr Hlt) as [rest Hrest].
  unfold keep, rank. rewrite Hrest, fmap_app. simpl.
  rewrite lookup_app_r by (by rewrite length_fmap).
  by rewrite length_fmap, Nat.sub_diag.
Qed.

Lemma remap_of_lookup dm k :
  remap_of dm !! k = (λ d, Z.of_nat (rank dm (Z.to_nat d))) <$> dm !! k.
Proof. unfold remap_of. by rewrite list_lookup_fmap. Qed.

Lemma length_remap_of dm : length (remap_of dm) = length dm.
Proof. unfold remap_of. by rewrite length_fmap. Qed.

Lemma duplicates_of_canonical vs :
  Forall is_point vs → canonical_map (duplicates_of vs).
Proof.
  rewrite Forall_forall. intros Hpts k d Hk. rewrite duplicates_of_lookup in Hk.
  destruct (vs !! k) as [v|] eqn:Hv; simplify_eq/=.
  assert (is_point v) as Hpt by (by eapply Hpts, list_elem_of_lookup_2).
  destruct (first_index_self vs k v Hv Hpt) as (Hle&w&Hw&Hwv).
  exists (first_index v vs). split; [done|]. rewrite length_duplicates_of.
  split; [apply lookup_lt_Some in Hv; lia|].
  unfold own. rewrite duplicates_of_lookup, Hw. simpl.
  by rewrite (first_index_idem vs k v w).
Qed.

(** ** The three loops of [removeDuplicates] *)

Lemma vec_at_Z {A} (v : list A) (i : Z) : (0 ≤ i)%Z → vec_at v i = v !! Z.to_nat i.
Proof. intros. unfold vec_at. by rewrite decide_True. Qed.

Lemma Index_eq_uint_own dm (k : nat) d :
  (Z.of_nat k ≤ INT_MAX)%Z → dm !! k = Some d →
  Index_eq_uint d (Z.of_nat k) = bool_decide (own dm k).
Proof.
  intros Hk Hd. unfold Index_eq_uint.
  rewrite to_int_small, mkIndex_nonneg by lia.
  destruct (Z.eqb_spec d (Z.of_nat k)) as [->|Hne].
  - by rewrite bool_decide_eq_true_2.
  - rewrite bool_decide_eq_false_2; [done|]. unfold own. congruence.
Qed.

Lemma collect_unique_run mesh dm :
  let n := length (vertices mesh) in
  length dm = n → length (normals mesh) = n → (Z.of_nat n ≤ INT_MAX)%Z →
  ∃ ni,
    collect_unique mesh dm =
      Some (ni, keep dm n (vertices mesh), keep dm n (normals mesh)) ∧
    length ni = n ∧
    ∀ j, (j < n)%nat →
      ni !! j = Some (if decide (own dm j) then Z.of_nat (rank dm j) else Invalid).
Proof.
  intros n Hdm Hns Hmax. unfold collect_unique, size. fold n. rewrite Nat2Z.id.
  set (I := λ (i : Z) (st : list Index * list Vector3 * list Vector3),
    ∃ k : nat, i = Z.of_nat k ∧
      length st.1.1 = n ∧
      (∀ j, (j < n)%nat → st.1.1 !! j =
         Some (if decide ((j < k)%nat ∧ own dm j) then Z.of_nat (rank dm j) else Invalid)) ∧
      st.1.2 = keep dm k (vertices mesh) ∧
      st.2 = keep dm k (normals mesh)).
  match goal with |- context [for_range _ _ ?b ?st] =>
    destruct (for_range_inv I b 0 (Z.of_nat n) st)
      as ([[ni uv] un]&Hrun&k&Hk&Hl&Hni&Huv&Hun)
  end.
  - lia.
  - exists 0%nat. cbn [fst snd]. split; [done|]. split; [by rewrite length_replicate|].
    split; [|done]. intros j Hj. rewrite lookup_replicate_2 by done.
    case_decide; [lia|done].
  - subst I. intros i [[ni uv] un] Hi (k&->&Hl&Hni&Huv&Hun).
    cbn [fst snd] in Hl, Hni, Huv, Hun.
    destruct (lookup_lt_is_Some_2 dm k) as [d Hd]; [lia|].
    subst uv un. cbv beta iota. rewrite !vec_at_nat, Hd. cbn [mbind option_bind].
    rewrite (Index_eq_uint_own dm k d) by (lia || done).
    destruct (decide (own dm k)) as [Hown|Hown].
    + rewrite bool_decide_eq_true_2 by done.
      pose proof (rank_le dm k). rewrite length_keep.
      rewrite to_int_small, mkIndex_nonneg by lia.
      rewrite vec_set_nat by lia. cbn [mbind option_bind].
      destruct (lookup_lt_is_Some_2 (vertices mesh) k) as [v Hv]; [lia|].
      destruct (lookup_lt_is_Some_2 (normals mesh) k) as [nn Hnn]; [lia|].
      rewrite Hv, Hnn. cbn [mbind option_bind]. eexists. split; [done|].
      exists (S k). split; [lia|]. cbn [fst snd].
      split; [by rewrite length_insert|]. split; [|split].
      * intros j Hj. destruct (decide (j = k)) as [->|Hne].
        -- rewrite list_lookup_insert_eq by lia.
           own_cases.
        -- rewrite list_lookup_insert_ne by done. rewrite Hni by done.
           own_cases.
      * rewrite keep_S, decide_True by done.
        by rewrite (list_lookup_total_correct _ _ _ Hv).
      * rewrite keep_S, decide_True by done.
        by rewrite (list_lookup_total_correct _ _ _ Hnn).
    + rewrite bool_decide_eq_false_2 by done. eexists. split; [done|].
      exists (S k). split; [lia|]. cbn [fst snd]. split; [done|]. split; [|split].
      * intros j Hj. rewrite Hni by done.
        destruct (decide (j = k)) as [->|Hne];
          own_cases.
      * by rewrite keep_S, decide_False, app_nil_r.
      * by rewrite keep_S, decide_False, app_nil_r.
  - apply Nat2Z.inj in Hk as <-. cbn [fst snd] in Hl, Hni, Huv, Hun. subst uv un.
    rewrite Hrun.
    exists ni. split; [done|]. split; [done|].
    intros j Hj. rewrite Hni by done.
    own_cases.
Qed.

Section Renumbering.

Variable dm ni : list Index.
Variable n : nat.
Hypothesis Hcanon : canonical_map dm.
Hypothesis Hlen : length dm = n.
Hypothesis Hmax : (Z.of_nat n ≤ INT_MAX)%Z.
Hypothesis Hni : ∀ j, (j < n)%nat →
  ni !! j = Some (if decide (own dm j) then Z.of_nat (rank dm j) else Invalid).

(** Looking a vertex up through both maps gives its entry of the remap. *)
Lemma through_both_maps (k : nat) :
  (k < n)%nat →
  ∃ r : nat, dm !! k = Some (Z.of_nat r) ∧ (r < n)%nat ∧ own dm r ∧
    ni !! r = Some (Z.of_nat (rank dm r)) ∧
    remap_of dm !! k = Some (Z.of_nat (rank dm r)).
Proof.
  intros Hk. destruct (lookup_lt_is_Some_2 dm k) as [d Hd]; [lia|].
  destruct (Hcanon k d Hd) as (r&->&Hr&Hown). exists r.
  split; [done|]. split; [lia|]. split; [done|]. split.
  - rewrite Hni by lia. by rewrite decide_True.
  - rewrite remap_of_lookup, Hd. simpl. by rewrite Nat2Z.id.
Qed.

Lemma corner_run {B} (a : Z) (f : Z → B) :
  (0 ≤ a < Z.of_nat n)%Z →
  (d ← vec_at dm a; newIdx ← vec_at ni (to_uint d); Some (f (to_uint newIdx))) =
  Some (f (remap_of dm !!! Z.to_nat a)).
Proof.
  intros Ha. destruct (through_both_maps (Z.to_nat a)) as (r&Hd&Hr&_&Hnr&Hrm); [lia|].
  rewrite vec_at_Z, Hd by lia. simpl.
  rewrite to_uint_small, vec_at_nat, Hnr by lia. simpl.
  pose proof (rank_le dm r). rewrite to_uint_small by lia.
  by rewrite (list_lookup_total_correct _ _ _ Hrm).
Qed.

Lemma rewrite_triangle_run t :
  corner_ok (Z.of_nat n) t →
  rewrite_triangle dm ni t = Some (renumber (remap_of dm) t).
Proof.
  intros (H0&H1&H2). unfold rewrite_triangle, for_range.
  change (seqZ 0 (3 - 0)) with [0; 1; 2]%Z. cbn [for_each].
  rewrite (corner_run (coeff t 0) (set_coeff t 0)) by done. cbn [mbind option_bind].
  rewrite (corner_run (coeff _ 1) (set_coeff _ 1)) by done. cbn [mbind option_bind].
  rewrite (corner_run (coeff _ 2) (set_coeff _ 2)) by done. done.
Qed.

Lemma rewrite_indices_run sched (tris : list Triangle) :
  schedule_contract sched →
  (size tris ≤ INT_MAX)%Z →
  Forall (corner_ok (Z.of_nat n)) tris →
  rewrite_indices sched dm ni tris = Some (renumber (remap_of dm) <$> tris).
Proof.
  intros Hsched Htris Hok. unfold rewrite_indices, size in Htris |- *.
  apply parallel_for_cells; [done|done|done|by rewrite length_fmap|].
  intros k vec a Hvec Hk Ha. rewrite list_lookup_fmap in Ha.
  destruct (tris !! k) as [t|] eqn:Ht; [|done]. simpl in Ha. injection Ha as <-.
  apply lookup_lt_Some in Ht as Hlt.
  rewrite to_uint_small, vec_at_nat, Hk by lia. simpl.
  rewrite rewrite_triangle_run
    by (rewrite Forall_forall in Hok; by eapply Hok, list_elem_of_lookup_2).
  simpl. apply vec_set_nat. lia.
Qed.

Lemma fill_vertex_map_run sched (vertexMap : list Index) :
  schedule_contract sched →
  fill_vertex_map sched dm ni (Z.of_nat n) (resize n Invalid vertexMap) =
  Some (remap_of dm).
Proof.
  intros Hsched. unfold fill_vertex_map.
  apply parallel_for_cells;
    [done|done|by rewrite length_resize|by rewrite length_remap_of|].
  intros k vec a Hvec _ Ha. apply lookup_lt_Some in Ha as Hk.
  rewrite length_remap_of in Hk.
  destruct (through_both_maps k) as (r&Hd&Hr&_&Hnr&Hrm); [lia|].
  rewrite to_uint_small, vec_at_nat, Hd by lia. simpl.
  rewrite to_uint_small, vec_at_nat, Hnr by lia. simpl.
  rewrite vec_set_nat by lia. congruence.
Qed.

End Renumbering.

(** ** [removeDuplicates] computes the compacted mesh of the specification *)

Lemma removeDuplicates_run srt sched mesh vertexMap :
  sort_contract srt → schedule_contract sched →
  mesh_inv mesh → all_points mesh → fits_int mesh → vertices mesh ≠ [] →
  removeDuplicates srt sched mesh vertexMap =
    Some (compacted mesh, remap_of (duplicates_of (vertices mesh))).
Proof.
  intros Hsrt Hsched [Hnormals Hcorners] Hpts [Hnv Hnt] Hne.
  unfold removeDuplicates. rewrite findDuplicates_run by done. simpl.
  set (dm := duplicates_of (vertices mesh)).
  pose proof (length_duplicates_of (vertices mesh)) as Hdm. fold dm in Hdm.
  destruct (collect_unique_run mesh dm Hdm Hnormals Hnv) as (ni&->&Hnil&Hni).
  simpl. unfold size in *.
  rewrite (rewrite_indices_run dm ni (length (vertices mesh)))
    by (done || by apply duplicates_of_canonical).
  simpl. rewrite Nat2Z.id.
  rewrite (fill_vertex_map_run dm ni (length (vertices mesh)))
    by (done || by apply duplicates_of_canonical).
  done.
Qed.

(** ** Facts about the compacted mesh *)

Lemma rank_S dm n :
  rank dm (S n) = (rank dm n + (if decide (own dm n) then 1 else 0))%nat.
Proof.
  unfold rank. rewrite representatives_S, length_app. by case_decide.
Qed.

Lemma representatives_all dm n :
  (∀ k, (k < n)%nat → own dm k) → representatives dm n = seq 0 n.
Proof.
  intros Hall. induction n as [|n IH]; [done|].
  rewrite representatives_S, IH, decide_True, seq_S by auto. done.
Qed.

Lemma rank_full dm n : rank dm n = n ↔ ∀ k, (k < n)%nat → own dm k.
Proof.
  split.
  - intros Hrank k Hk. destruct (decide (own dm k)) as [|Hno]; [done|exfalso].
    pose proof (length_filter_lt (own dm) (seq 0 n) k) as Hlt.
    rewrite length_seq in Hlt. unfold rank, representatives in Hrank.
    rewrite Hrank in Hlt. apply (Nat.lt_irrefl n), Hlt; [|done].
    apply elem_of_seq. lia.
  - intros Hall. unfold rank. by rewrite representatives_all, length_seq.
Qed.

Lemma all_own_identity dm n :
  length dm = n → (∀ k, (k < n)%nat → own dm k) ↔ dm = seqZ 0 (Z.of_nat n).
Proof.
  intros Hlen. split.
  - intros Hall. apply list_eq. intros k. destruct (decide (k < n)%nat).
    + rewrite lookup_seqZ_lt by lia. by apply Hall.
    + rewrite lookup_seqZ_ge by lia. apply lookup_ge_None. lia.
  - intros -> k Hk. unfold own. by rewrite lookup_seqZ_lt by lia.
Qed.


Lemma fmap_lookup_total_seq (l : list Vector3) :
  (λ k, l !!! k) <$> seq 0 (length l) = l.
Proof.
  apply list_eq. intros k. rewrite list_lookup_fmap.
  destruct (l !! k) as [a|] eqn:Hk.
  - rewrite lookup_seq_lt by (by apply lookup_lt_Some in Hk). simpl.
    by rewrite (list_lookup_total_correct _ _ _ Hk).
  - rewrite lookup_seq_ge; [done|]. by apply lookup_ge_None.
Qed.

(** What is known of a vertex [i] at a point [v]: its representative [f]
    is the first vertex with its position, and owns a place in the
    compacted arrays. *)
Lemma vertex_facts vs i v :
  Forall is_point vs → vs !! i = Some v →
  let dm := duplicates_of vs in
  let f := first_index v vs in
  (f ≤ i)%nat ∧ (f < length vs)%nat ∧
  (∃ w, vs !! f = Some w ∧ Vector3_eq w v = true) ∧
  own dm f ∧
  dm !! i = Some (Z.of_nat f) ∧
  remap_of dm !! i = Some (Z.of_nat (rank dm f)) ∧
  (rank dm f < rank dm (length vs))%nat.
Proof.
  intros Hpts Hi dm f.
  assert (is_point v) as Hv.
  { rewrite Forall_forall in Hpts. by eapply Hpts, list_elem_of_lookup_2. }
  destruct (first_index_self vs i v Hi Hv) as (Hle&w&Hw&Hwv). fold f in Hle, Hw.
  assert (f < length vs)%nat as Hf by (apply lookup_lt_Some in Hi; lia).
  assert (dm !! i = Some (Z.of_nat f)) as Hdm.
  { unfold dm. by rewrite duplicates_of_lookup, Hi. }
  assert (own dm f) as Hown.
  { unfold own, dm. rewrite duplicates_of_lookup, Hw. simpl.
    by rewrite (first_index_idem vs i v w). }
  repeat split; try done.
  - by exists w.
  - rewrite remap_of_lookup, Hdm. simpl. by rewrite Nat2Z.id.
  - by apply rank_lt.
Qed.

Lemma remap_of_in_range dm k r :
  canonical_map dm → remap_of dm !! k = Some r →
  (0 ≤ r < Z.of_nat (rank dm (length dm)))%Z.
Proof.
  intros Hcanon Hk. rewrite remap_of_lookup in Hk.
  destruct (dm !! k) as [d|] eqn:Hd; simplify_eq/=.
  destruct (Hcanon k d Hd) as (r&->&Hr&Hown). rewrite Nat2Z.id.
  pose proof (rank_lt dm (length dm) r Hown Hr). lia.
Qed.

Lemma renumber_in_range dm t :
  canonical_map dm → corner_ok (Z.of_nat (length dm)) t →
  corner_ok (Z.of_nat (rank dm (length dm))) (renumber (remap_of dm) t).
Proof.
  intros Hcanon (H0&H1&H2).
  assert (∀ a, (0 ≤ a < Z.of_nat (length dm))%Z →
    (0 ≤ remap_of dm !!! Z.to_nat a < Z.of_nat (rank dm (length dm)))%Z) as Hcorner.
  { intros a Ha.
    destruct (lookup_lt_is_Some_2 (remap_of dm) (Z.to_nat a)) as [r Hr].
    { rewrite length_remap_of. lia. }
    rewrite (list_lookup_total_correct _ _ _ Hr). by eapply remap_of_in_range. }
  repeat split; simpl; by apply Hcorner.
Qed.


(** A mesh whose duplicate map is the identity is its own compaction. *)
Lemma compacted_identity mesh :
  mesh_inv mesh →
  duplicates_of (vertices mesh) = seqZ 0 (size (vertices mesh)) →
  compacted mesh = mesh ∧
  remap_of (duplicates_of (vertices mesh)) = seqZ 0 (size (vertices mesh)).
Proof.
  intros [Hnormals Hcorners] Hid. unfold compacted. rewrite Hid. unfold size in *.
  set (n := length (vertices mesh)) in *.
  assert (∀ k, (k ≤ n)%nat → representatives (seqZ 0 (Z.of_nat n)) k = seq 0 k) as Hreps.
  { intros k Hk. apply representatives_all. intros j Hj.
    unfold own. rewrite lookup_seqZ_lt by lia. done. }
  assert (remap_of (seqZ 0 (Z.of_nat n)) = seqZ 0 (Z.of_nat n)) as Hremap.
  { apply list_eq. intros k. rewrite remap_of_lookup.
    destruct (decide (k < n)%nat).
    - rewrite lookup_seqZ_lt by lia. simpl. unfold rank.
      rewrite Hreps, length_seq by lia. do 2 f_equal. lia.
    - rewrite lookup_seqZ_ge by lia. done. }
  split; [|done]. rewrite Hremap. unfold keep. rewrite Hreps by done.
  destruct mesh as [vs ns tris]. simpl in *. f_equal.
  - apply fmap_lookup_total_seq.
  - subst n. rewrite <-Hnormals. apply fmap_lookup_total_seq.
  - rewrite <-(list_fmap_id tris) at 2. apply Forall_fmap_ext_1.
    eapply Forall_impl; [exact Hcorners|]. intros [a b c] (Ha&Hb&Hc). simpl in *.
    unfold renumber. simpl. rewrite !lookup_total_seqZ_lt by lia. f_equal; lia.
Qed.

(** ** The instances meet their contracts *)

Lemma insertion_sort_rev_contract : sort_contract insertion_sort_rev.
Proof.
  intros l Hl. unfold insertion_sort_rev.
  destruct (insertion_sort_contract (reverse l)) as [Hperm Hsorted].
  - destruct Hl as [H1 H2 H3]. split; intros *; rewrite ?elem_of_reverse; eauto.
  - split; [|done]. by rewrite Hperm, reverse_Permutation.
Qed.

Lemma backwards_contract : schedule_contract backwards.
Proof. intros n. apply reverse_Permutation. Qed.

Lemma scenario_inv : mesh_inv scenario_mesh.
Proof.
  split; [done|]. repeat apply Forall_cons_2; [|apply Forall_nil_2].
  unfold corner_ok, size. simpl. lia.
Qed.

Lemma scenario_points : all_points scenario_mesh.
Proof. repeat constructor. Qed.

Lemma scenario_fits : fits_int scenario_mesh.
Proof. split; vm_compute; discriminate. Qed.

Lemma scenario_representable : representable scenario_mesh.
Proof. split; [apply scenario_points|apply scenario_fits]. Qed.

Lemma scenario_nonempty : vertices scenario_mesh ≠ [].
Proof. done. Qed.

(** The side condition on the positions cannot be dropped.  With a NaN
    coordinate the comparator is no strict weak ordering on the array, the
    contract of [std::sort] says nothing, and two sorts that both meet the
    contract return different arrays: one brings the vertices 0 and 2
    together, the other leaves the NaN vertex between them. *)
Example outside_points_sorts_disagree :
  ¬ strict_weak_on (entries (vertices nan_mesh)) ∧
  findDuplicates insertion_sort sequential nan_mesh = Some (true, [0; 1; 0]%Z) ∧
  findDuplicates insertion_sort_rev sequential nan_mesh = Some (false, [0; 1; 2]%Z).
Proof.
  split; [|by vm_compute]. intros [_ _ Hequiv].
  destruct (Hequiv (mkVector3 f1 f0 f0, 0%Z) (mkVector3 S754_nan f0 f0, 1%Z)
                   (mkVector3 f1 f0 f0, 2%Z)) as [Hlt _];
    try done; apply elem_of_entries; simpl.
  - by exists 0%nat.
  - by exists 1%nat.
  - by exists 2%nat.
Qed.

(** * The properties stated by the specification *)

(** Without vertices the array that is sorted is empty, and the walk starts
    by reading its first element. *)
Lemma no_vertices_no_result srt sched mesh :
  sort_contract srt → schedule_contract sched →
  vertices mesh = [] →
  findDuplicates srt sched mesh = None.
Proof.
  intros Hsrt Hsched Hvs. unfold findDuplicates.
  rewrite pair_vertices_run by (done || by rewrite Hvs). rewrite Hvs. simpl.
  destruct (Hsrt []) as [Hperm _]; [by apply strict_weak_on_points|].
  apply Permutation_nil_r in Hperm.
  change (entries []) with (@nil VertexEntry). rewrite Hperm. done.
Qed.

(** C1.  A mesh with zero vertices is not handled as a zero-result case:
    after the (empty) pairing loop and the sort of an empty range,
    [findDuplicates] reads [vertices[0]], the first element of an empty
    vector.  The access lies outside the vector, so the call has no defined
    result; it does not return [false] with an empty map. *)
Theorem findDuplicates_empty_mesh srt sched mesh :
  sort_contract srt → schedule_contract sched →
  vertices mesh = [] →
  findDuplicates srt sched mesh = None.
Proof. apply no_vertices_no_result. Qed.

Lemma findDuplicates_empty_mesh_witness :
  findDuplicates insertion_sort sequential empty_mesh = None.
Proof.
  apply findDuplicates_empty_mesh;
    [apply insertion_sort_contract|apply sequential_contract|reflexivity].
Defined.

(** C2, at the mesh without vertices.  [removeDuplicates] starts with
    [findDuplicates], whose first-element access is outside the empty
    vector: there is no compacted mesh whose vertex count could be
    compared. *)
Theorem removeDuplicates_empty_mesh srt sched mesh vertexMap :
  sort_contract srt → schedule_contract sched →
  vertices mesh = [] →
  removeDuplicates srt sched mesh vertexMap = None.
Proof.
  intros Hsrt Hsched Hvs. unfold removeDuplicates.
  by rewrite no_vertices_no_result.
Qed.

Lemma removeDuplicates_empty_mesh_witness :
  removeDuplicates insertion_sort sequential empty_mesh [] = None.
Proof.
  apply removeDuplicates_empty_mesh;
    [apply insertion_sort_contract|apply sequential_contract|reflexivity].
Defined.

(** Cardinality on every representable mesh that meets the invariants and
    has at least one vertex: the compacted vertex count is at most the
    original one, and the two are equal exactly when [findDuplicates]
    returns [false]. *)
Theorem cardinality_nonempty srt sched mesh vertexMap :
  sort_contract srt → schedule_contract sched →
  mesh_inv mesh → representable mesh → vertices mesh ≠ [] →
  ∃ has dm mesh' remap,
    findDuplicates srt sched mesh = Some (has, dm) ∧
    removeDuplicates srt sched mesh vertexMap = Some (mesh', remap) ∧
    (length (vertices mesh') ≤ length (vertices mesh))%nat ∧
    (length (vertices mesh') = length (vertices mesh) ↔ has = false).
Proof.
  intros Hsrt Hsched Hinv [Hpts Hfit] Hne.
  eexists _, _, _, _. split; [apply findDuplicates_run; try done; apply Hfit|].
  split; [by apply removeDuplicates_run|]. simpl. rewrite length_keep.
  split; [apply rank_le|]. rewrite rank_full.
  rewrite (all_own_identity _ _ (length_duplicates_of _)).
  unfold has_duplicates, size. rewrite negb_false_iff, bool_decide_eq_true. done.
Qed.

(** A mesh without two vertices of one position comes back as it was, with
    the identity as vertex map. *)
Corollary no_duplicates_unchanged srt sched mesh vertexMap :
  sort_contract srt → schedule_contract sched →
  mesh_inv mesh → representable mesh → vertices mesh ≠ [] →
  findDuplicates srt sched mesh = Some (false, seqZ 0 (size (vertices mesh))) →
  removeDuplicates srt sched mesh vertexMap =
    Some (mesh, seqZ 0 (size (vertices mesh))).
Proof.
  intros Hsrt Hsched Hinv [Hpts Hfit] Hne Hfind.
  rewrite findDuplicates_run in Hfind by (done || apply Hfit).
  injection Hfind as _ Hid.
  destruct (compacted_identity _ Hinv Hid) as [Hsame Hremap].
  rewrite removeDuplicates_run by done. by rewrite Hsame, Hremap.
Qed.







(** The compacted mesh is again a mesh the functions accept. *)
Lemma compacted_admissible mesh :
  mesh_inv mesh → representable mesh → vertices mesh ≠ [] →
  mesh_inv (compacted mesh) ∧ representable (compacted mesh) ∧
  vertices (compacted mesh) ≠ [].
Proof.
  intros Hinv [Hpts [Hnv Hnt]] Hne.
  pose proof (duplicates_of_canonical _ Hpts) as Hcanon.
  pose proof (length_duplicates_of (vertices mesh)) as Hlen.
  set (dm := duplicates_of (vertices mesh)) in *.
  pose proof (rank_le dm (length (vertices mesh))) as Hrank.
  split; [|split; [split|]].
  - split; simpl; [by rewrite !length_keep|].
    unfold size. rewrite length_keep, <-Hlen.
    apply Forall_fmap. eapply Forall_impl; [apply Hinv|].
    intros t Ht. apply renumber_in_range; [done|]. by rewrite length_duplicates_of.
  - unfold all_points, compacted, keep. simpl. fold dm.
    apply Forall_fmap, Forall_forall. intros r [_ Hr]%elem_of_representatives.
    simpl. destruct (lookup_lt_is_Some_2 _ r Hr) as [v Hv].
    rewrite (list_lookup_total_correct _ _ _ Hv).
    unfold all_points in Hpts. rewrite Forall_forall in Hpts.
    by eapply Hpts, list_elem_of_lookup_2.
  - unfold fits_int, size in *. simpl. rewrite length_keep, length_fmap. fold dm. lia.
  - intros Hnil. apply (f_equal length) in Hnil. simpl in Hnil.
    rewrite length_keep in Hnil. fold dm in Hnil.
    unfold all_points in Hpts.
    destruct (vertices mesh) as [|v vs] eqn:Hvs; [done|].
    destruct (vertex_facts (v :: vs) 0 v Hpts eq_refl) as (_&_&_&_&_&_&Hlt).
    fold dm in Hlt. simpl in Hlt, Hnil. lia.
Qed.





(** The run of three of the specification: among 21 vertices only those at
    indices 5, 9 and 20 share the position (1, 2, 3); all three are sent to
    index 5. *)
Example run_of_three :
  let p := mkVector3 f1 (S754_finite false 8388608 (-22))
                        (S754_finite false 12582912 (-22)) in
  let other k := mkVector3 (S754_finite false (8388608 + k) (-23)) f0 f0 in
  let vs := [other 1; other 2; other 3; other 4; other 5; p; other 6; other 7;
             other 8; p; other 9; other 10; other 11; other 12; other 13;
             other 14; other 15; other 16; other 17; other 18; p]%positive in
  ∃ dm, findDuplicates insertion_sort sequential (mkTriangleMesh vs vs []) =
          Some (true, dm) ∧
        dm !! 5%nat = Some 5%Z ∧ dm !! 9%nat = Some 5%Z ∧ dm !! 20%nat = Some 5%Z.
Proof. eexists. vm_compute. repeat split. Qed.

(** C8.  The scenario of the specification: on the mesh with vertices
    (0,0,0), (1,0,0), (0,0,0), (1,1,0), normals (0,0,1) and the triangle
    (0,1,2), [findDuplicates] returns [true], and [removeDuplicates] leaves
    the vertices (0,0,0), (1,0,0), (1,1,0), the triangle (0,1,0) and the
    vertex map [0,1,0,2]. *)
Theorem scenario_outcome srt sched vertexMap :
  sort_contract srt → schedule_contract sched →
  findDuplicates srt sched scenario_mesh = Some (true, [0; 1; 0; 3]%Z) ∧
  removeDuplicates srt sched scenario_mesh vertexMap =
    Some (scenario_result, [0; 1; 0; 2]%Z).
Proof.
  intros Hsrt Hsched. split.
  - rewrite findDuplicates_run;
      [|done|done|apply scenario_points|apply scenario_nonempty|apply scenario_fits].
    vm_compute. done.
  - rewrite removeDuplicates_run;
      [|done|done|apply scenario_inv|apply scenario_points|apply scenario_fits
       |apply scenario_nonempty].
    vm_compute. done.
Qed.

Lemma scenario_outcome_witness :
  findDuplicates insertion_sort sequential scenario_mesh = Some (true, [0; 1; 0; 3]%Z) ∧
  removeDuplicates insertion_sort sequential scenario_mesh [] =
    Some (scenario_result, [0; 1; 0; 2]%Z).
Proof.
  apply scenario_outcome; [apply insertion_sort_contract|apply sequential_contract].
Defined.





(** * Behaviour outside the invariants *)

(** ** More loop rules *)

Lemma for_each_ext {S} (body body' : Z → S → option S) order s :
  (∀ i t, i ∈ order → body i t = body' i t) →
  for_each order body s = for_each order body' s.
Proof.
  revert s. induction order as [|i order IH]; intros s Hext; [done|]. simpl.
  rewrite Hext by (by left). destruct (body' i s) as [s'|]; [|done]. simpl.
  apply IH. intros j t Hj. apply Hext. by right.
Qed.

Lemma for_each_app {S} (body : Z → S → option S) p q s :
  for_each (p ++ q) body s = for_each p body s ≫= for_each q body.
Proof.
  revert s. induction p as [|i p IH]; intros s; [done|]. simpl.
  destruct (body i s) as [s'|]; [|done]. simpl. apply IH.
Qed.

(** An invariant of the iterations that succeed. *)
Lemma for_each_partial_from {S} (I : list Z → S → Prop) (body : Z → S → option S) rest :
  ∀ pre s s',
  I pre s →
  (∀ p i t t', i ∈ rest → I p t → body i t = Some t' → I (p ++ [i]) t') →
  for_each rest body s = Some s' → I (pre ++ rest) s'.
Proof.
  induction rest as [|i rest IH]; intros pre s s' Hpre Hstep Hrun; simpl in Hrun.
  - simplify_eq. by rewrite app_nil_r.
  - destruct (body i s) as [t|] eqn:Hi; [|done]. simpl in Hrun.
    rewrite (cons_middle i pre rest), app_assoc.
    apply (IH _ t); [|by intros; eapply Hstep; [right|..]|done].
    eapply Hstep; [by left|done|done].
Qed.

(** A loop that meets a faulting iteration has no result. *)
Lemma for_each_fault {S} (I : list Z → S → Prop) (body : Z → S → option S) p i q s :
  I [] s →
  (∀ p' j t t', j ∈ p → I p' t → body j t = Some t' → I (p' ++ [j]) t') →
  (∀ t, I p t → body i t = None) →
  for_each (p ++ i :: q) body s = None.
Proof.
  intros Hinit Hstep Hfault. rewrite for_each_app.
  destruct (for_each p body s) as [t|] eqn:Hp; [|done]. simpl.
  rewrite (Hfault t); [done|].
  by apply (for_each_partial_from I body p [] s t).
Qed.

(** ** [collect_unique] and the normals *)

(** Only the normals of the representatives are read. *)
Lemma collect_unique_normals mesh mesh2 dm :
  vertices mesh2 = vertices mesh →
  (size (vertices mesh) ≤ INT_MAX)%Z →
  (∀ k, own dm k → normals mesh2 !! k = normals mesh !! k) →
  collect_unique mesh2 dm = collect_unique mesh dm.
Proof.
  intros Hvs Hmax Hns. unfold collect_unique, for_range. rewrite Hvs.
  apply for_each_ext. intros i [[ni uv] un] Hi. apply elem_of_seqZ in Hi.
  unfold size in *. destruct (Z_of_nat_complete i ltac:(lia)) as [k ->].
  rewrite !vec_at_nat. destruct (dm !! k) as [d|] eqn:Hd; [|done]. simpl.
  rewrite (Index_eq_uint_own dm k d) by (lia || done).
  case_bool_decide as Hown; [|done]. by rewrite (Hns k Hown).
Qed.

Lemma keep_normals dm n (ns ns2 : list Vector3) :
  (∀ k, own dm k → (k < n)%nat → ns2 !!! k = ns !!! k) →
  keep dm n ns2 = keep dm n ns.
Proof.
  intros Hns. unfold keep. apply list_fmap_ext.
  intros i k Hk. apply list_elem_of_lookup_2, elem_of_representatives in Hk as [??].
  by apply Hns.
Qed.

Lemma collect_unique_run_cover mesh dm :
  let n := length (vertices mesh) in
  length dm = n → (Z.of_nat n ≤ INT_MAX)%Z →
  (∀ k, own dm k → (k < n)%nat → (k < length (normals mesh))%nat) →
  ∃ ni,
    collect_unique mesh dm =
      Some (ni, keep dm n (vertices mesh), keep dm n (normals mesh)) ∧
    length ni = n ∧
    ∀ j, (j < n)%nat →
      ni !! j = Some (if decide (own dm j) then Z.of_nat (rank dm j) else Invalid).
Proof.
  intros n Hdm Hmax Hcover.
  set (ns2 := (λ k, normals mesh !!! k) <$> seq 0 n).
  set (mesh2 := mkTriangleMesh (vertices mesh) ns2 (m_indices mesh)).
  assert (∀ k, (k < n)%nat → ns2 !! k = Some (normals mesh !!! k)) as Hns2.
  { intros k Hk. unfold ns2. by rewrite list_lookup_fmap, lookup_seq_lt. }
  destruct (collect_unique_run mesh2 dm) as (ni&Hrun&Hni); [done| |done|].
  { unfold mesh2, ns2. simpl. by rewrite length_fmap, length_seq. }
  exists ni. split; [|done].
  rewrite <-(collect_unique_normals mesh mesh2 dm); [|done|done|].
  - rewrite Hrun. simpl. do 2 f_equal. apply keep_normals.
    intros k _ Hk. by rewrite (list_lookup_total_correct _ _ _ (Hns2 k Hk)).
  - intros k Hown. destruct (decide (k < n)%nat) as [Hk|Hk].
    + simpl. rewrite (Hns2 k Hk).
      destruct (lookup_lt_is_Some_2 (normals mesh) k (Hcover k Hown Hk)) as [a Ha].
      by rewrite (list_lookup_total_correct _ _ _ Ha).
    + unfold own in Hown. apply lookup_lt_Some in Hown. lia.
Qed.

(** A representative without a normal: the loop reads outside the normals. *)
Lemma collect_unique_no_normal mesh dm (k : nat) :
  (Z.of_nat (length (vertices mesh)) ≤ INT_MAX)%Z →
  own dm k → (k < length (vertices mesh))%nat → (length (normals mesh) ≤ k)%nat →
  collect_unique mesh dm = None.
Proof.
  intros Hmax Hown Hk Hns. unfold collect_unique, for_range, size.
  replace (Z.of_nat (length (vertices mesh)) - 0)%Z
    with (Z.of_nat k + (Z.of_nat (length (vertices mesh)) - Z.of_nat k))%Z by lia.
  rewrite seqZ_app by lia. rewrite (seqZ_cons (0 + Z.of_nat k)) by lia.
  apply (for_each_fault (λ _ _, True)); [done|done|].
  intros [[ni uv] un] _. rewrite Z.add_0_l, !vec_at_nat.
  rewrite Hown. simpl. rewrite (Index_eq_uint_own dm k) by (lia || done).
  rewrite bool_decide_eq_true_2 by done.
  destruct (vec_set ni _ _); [|done]. simpl.
  destruct (vertices mesh !! k); [|done]. simpl.
  by rewrite (lookup_ge_None_2 (normals mesh) k).
Qed.

(** ** [rewrite_indices] and the corners *)

Lemma vec_at_Some_range {A} (v : list A) (i : Z) a :
  vec_at v i = Some a → (0 ≤ i < Z.of_nat (length v))%Z.
Proof.
  unfold vec_at. case_decide; [|done]. intros Hi%lookup_lt_Some. lia.
Qed.

Lemma rewrite_triangle_corners dm ni t t' :
  rewrite_triangle dm ni t = Some t' → corner_ok (Z.of_nat (length dm)) t.
Proof.
  unfold rewrite_triangle, for_range.
  change (seqZ 0 (3 - 0)) with [0; 1; 2]%Z. cbn [for_each]. intros Hrun.
  destruct (vec_at dm (coeff t 0)) as [d0|] eqn:H0; [|done]. simpl in Hrun.
  destruct (vec_at ni (to_uint d0)) as [n0|]; [|done]. simpl in Hrun.
  destruct (vec_at dm (coeff (set_coeff t 0 (to_uint n0)) 1)) as [d1|] eqn:H1; [|done].
  simpl in Hrun.
  destruct (vec_at ni (to_uint d1)) as [n1|]; [|done]. simpl in Hrun.
  destruct (vec_at dm (coeff (set_coeff (set_coeff t 0 (to_uint n0)) 1 (to_uint n1)) 2))
    as [d2|] eqn:H2; [|done].
  apply vec_at_Some_range in H0, H1, H2. clear Hrun.
  unfold coeff, set_coeff in H0, H1, H2. simpl in H0, H1, H2.
  unfold corner_ok. lia.
Qed.

Lemma rewrite_indices_stray sched dm ni (tris : list Triangle) k t :
  schedule_contract sched →
  (size tris ≤ INT_MAX)%Z →
  tris !! k = Some t → ¬ corner_ok (Z.of_nat (length dm)) t →
  rewrite_indices sched dm ni tris = None.
Proof.
  intros Hsched Hmax Hk Hbad. unfold rewrite_indices, parallel_for, size in *.
  rewrite to_int_small by lia.
  pose proof (Hsched (Z.of_nat (length tris))) as Hperm.
  assert (NoDup (sched (Z.of_nat (length tris)))) as Hnd
    by (rewrite Hperm; apply NoDup_seqZ).
  assert (Z.of_nat k ∈ sched (Z.of_nat (length tris))) as Hin.
  { rewrite Hperm. apply elem_of_seqZ. apply lookup_lt_Some in Hk. lia. }
  apply list_elem_of_split in Hin as (p&q&Hsplit). rewrite Hsplit in Hnd, Hperm |- *.
  apply NoDup_app in Hnd as (_&Hfresh&_).
  apply (for_each_fault (λ done (vec : list Triangle),
    ∀ j : nat, Z.of_nat j ∉ done → vec !! j = tris !! j)).
  - done.
  - intros p' j vec vec' Hj Hvec Hbody i Hi.
    assert (j ∈ seqZ 0 (Z.of_nat (length tris))) as Hrange
      by (rewrite <-Hperm, elem_of_app; auto).
    apply elem_of_seqZ in Hrange.
    destruct (Z_of_nat_complete j ltac:(lia)) as [j' ->].
    rewrite to_uint_small in Hbody by lia. rewrite vec_at_nat in Hbody.
    destruct (vec !! j') as [u|]; [|done]. simpl in Hbody.
    destruct (rewrite_triangle dm ni u) as [u'|]; [|done]. simpl in Hbody.
    unfold vec_set in Hbody. case_decide; [|done]. simplify_eq.
    rewrite Nat2Z.id, list_lookup_insert_ne.
    + apply Hvec. intros ?. apply Hi. rewrite elem_of_app. auto.
    + intros ->. apply Hi. rewrite elem_of_app, list_elem_of_singleton. auto.
  - intros vec Hvec. apply lookup_lt_Some in Hk as Hlt.
    rewrite to_uint_small, vec_at_nat by lia.
    rewrite Hvec, Hk by (intros Hin; apply (Hfresh _ Hin); by left). simpl.
    destruct (rewrite_triangle dm ni t) as [t'|] eqn:Ht; [|done].
    by apply rewrite_triangle_corners in Ht.
Qed.

(** ** The domain of [removeDuplicates] *)

Lemma in_domain_decide mesh : in_domain mesh ∨ ¬ in_domain mesh.
Proof.
  unfold in_domain, normals_cover.
  destruct (vertices mesh) as [|v vs] eqn:Hvs; [right; by intros [? _]|].
  destruct (decide (Forall (corner_ok (size (v :: vs))) (m_indices mesh)));
    [|right; tauto].
  destruct (decide (Forall (λ u, (first_index u (v :: vs) < length (normals mesh))%nat)
                      (v :: vs))); [left; by repeat split|right; tauto].
Qed.

Lemma mesh_inv_in_domain mesh :
  mesh_inv mesh → all_points mesh → vertices mesh ≠ [] → in_domain mesh.
Proof.
  intros [Hns Htris] Hpts Hne. split; [done|]. split; [done|].
  apply Forall_forall. intros v Hv. apply list_elem_of_lookup in Hv as [i Hi].
  destruct (vertex_facts _ i v Hpts Hi) as (_&Hlt&_). by rewrite Hns.
Qed.

Lemma cover_own mesh k :
  normals_cover mesh → own (duplicates_of (vertices mesh)) k →
  (k < length (normals mesh))%nat.
Proof.
  intros Hcover Hown. unfold own in Hown. rewrite duplicates_of_lookup in Hown.
  destruct (vertices mesh !! k) as [v|] eqn:Hv; simplify_eq/=.
  unfold normals_cover in Hcover. rewrite Forall_forall in Hcover.
  apply list_elem_of_lookup_2, Hcover in Hv. lia.
Qed.

Lemma no_cover_own mesh :
  all_points mesh → ¬ normals_cover mesh →
  ∃ k, own (duplicates_of (vertices mesh)) k ∧
       (k < length (vertices mesh))%nat ∧ (length (normals mesh) ≤ k)%nat.
Proof.
  intros Hpts Hno. unfold normals_cover in Hno.
  apply not_Forall_Exists in Hno; [|apply _].
  apply Exists_exists in Hno as (v&Hv&Hlt).
  apply list_elem_of_lookup in Hv as [i Hi].
  destruct (vertex_facts _ i v Hpts Hi) as (_&Hf&_&Hown&_).
  exists (first_index v (vertices mesh)). split; [done|]. split; [done|].
  simpl in Hlt. lia.
Qed.

(** The outcome of [removeDuplicates] on every representable mesh. *)
Lemma removeDuplicates_inside srt sched mesh vertexMap :
  sort_contract srt → schedule_contract sched →
  representable mesh → in_domain mesh →
  removeDuplicates srt sched mesh vertexMap =
    Some (compacted mesh, remap_of (duplicates_of (vertices mesh))).
Proof.
  intros Hsrt Hsched [Hpts [Hnv Hnt]] (Hne&Hcorners&Hcover).
  unfold removeDuplicates. rewrite findDuplicates_run by done. simpl.
  set (dm := duplicates_of (vertices mesh)).
  pose proof (length_duplicates_of (vertices mesh)) as Hdm. fold dm in Hdm.
  destruct (collect_unique_run_cover mesh dm Hdm Hnv) as (ni&->&Hnil&Hni).
  { intros k Hown _. by apply cover_own. }
  simpl. unfold size in *.
  rewrite (rewrite_indices_run dm ni (length (vertices mesh)))
    by (done || by apply duplicates_of_canonical).
  simpl. rewrite Nat2Z.id.
  rewrite (fill_vertex_map_run dm ni (length (vertices mesh)))
    by (done || by apply duplicates_of_canonical).
  done.
Qed.

Lemma removeDuplicates_outside srt sched mesh vertexMap :
  sort_contract srt → schedule_contract sched →
  representable mesh → ¬ in_domain mesh →
  removeDuplicates srt sched mesh vertexMap = None.
Proof.
  intros Hsrt Hsched [Hpts [Hnv Hnt]] Hout. unfold removeDuplicates.
  destruct (vertices mesh) as [|v0 vs0] eqn:Hvs.
  { by rewrite no_vertices_no_result. }
  rewrite <-Hvs in *. assert (vertices mesh ≠ []) as Hne by (by rewrite Hvs).
  rewrite findDuplicates_run by done. simpl.
  set (dm := duplicates_of (vertices mesh)).
  pose proof (length_duplicates_of (vertices mesh)) as Hdm. fold dm in Hdm.
  destruct (decide (normals_cover mesh)) as [Hcover|Hcover].
  - destruct (collect_unique_run_cover mesh dm Hdm Hnv) as (ni&->&Hnil&Hni).
    { intros k Hown _. by apply cover_own. }
    simpl.
    destruct (decide (Forall (corner_ok (size (vertices mesh))) (m_indices mesh)))
      as [Hcorners|Hcorners]; [by destruct Hout|].
    apply not_Forall_Exists in Hcorners; [|apply _].
    apply Exists_exists in Hcorners as (t&Ht&Hbad).
    apply list_elem_of_lookup in Ht as [k Hk].
    rewrite (rewrite_indices_stray sched dm ni _ k t); [done..|].
    by rewrite Hdm.
  - destruct (no_cover_own mesh Hpts Hcover) as (k&Hown&Hk&Hns).
    by rewrite (collect_unique_no_normal mesh dm k).
Qed.

Lemma rank_inj dm r r' : own dm r → own dm r' → rank dm r = rank dm r' → r = r'.
Proof.
  intros Hr Hr' Heq. destruct (Nat.lt_trichotomy r r') as [Hlt|[->|Hlt]]; [|done|].
  - pose proof (rank_lt dm r' r Hr Hlt). lia.
  - pose proof (rank_lt dm r r' Hr' Hlt). lia.
Qed.

Lemma own_first_index vs k :
  own (duplicates_of vs) k ↔ ∃ v, vs !! k = Some v ∧ first_index v vs = k.
Proof.
  unfold own. rewrite duplicates_of_lookup. split.
  - intros Hown. destruct (vs !! k) as [v|]; simplify_eq/=. exists v. split; [done|lia].
  - intros (v&->&Hf). simpl. by rewrite Hf.
Qed.

Lemma has_duplicates_pair vs :
  Forall is_point vs →
  has_duplicates vs = true ↔
  ∃ i j v w, i ≠ j ∧ vs !! i = Some v ∧ vs !! j = Some w ∧ Vector3_eq v w = true.
Proof.
  intros Hpts. unfold has_duplicates, size.
  rewrite negb_true_iff, bool_decide_eq_false,
    <-(all_own_identity _ (length vs)) by apply length_duplicates_of.
  split.
  - intros Hnot.
    destruct (decide (Forall (own (duplicates_of vs)) (seq 0 (length vs)))) as [Hall|Hex].
    { destruct Hnot. intros k Hk. rewrite Forall_forall in Hall.
      apply Hall, elem_of_seq. lia. }
    apply not_Forall_Exists in Hex; [|apply _].
    apply Exists_exists in Hex as (k&Hk&Hno). apply elem_of_seq in Hk.
    destruct (lookup_lt_is_Some_2 vs k) as [v Hv]; [lia|].
    destruct (vertex_facts vs k v Hpts Hv) as (Hle&_&(w&Hw&Hwv)&Hown&_).
    exists (first_index v vs), k, w, v. repeat split; [|done..].
    intros Heq. apply Hno. by rewrite <-Heq.
  - intros (i&j&v&w&Hij&Hi&Hj&Heq) Hall.
    assert (∀ a b u u', (a < b)%nat → vs !! a = Some u → vs !! b = Some u' →
      Vector3_eq u u' = true → False) as Hlater.
    { intros a b u u' Hab Ha Hb Huu.
      pose proof (lookup_lt_Some _ _ _ Hb) as Hlt.
      apply Hall, own_first_index in Hlt as (u''&Hb'&Hf). simplify_eq.
      pose proof (first_index_le u'' vs a u Ha Huu). lia. }
    destruct (Nat.lt_trichotomy i j) as [Hlt|[->|Hlt]]; [by eapply Hlater|done|].
    rewrite Vector3_eq_sym in Heq. by eapply Hlater.
Qed.

Lemma representatives_beyond dm n m :
  (∀ k, own dm k → (k < n + m)%nat → (k < n)%nat) →
  representatives dm (n + m) = representatives dm n.
Proof.
  intros Hbound. induction m as [|m IH]; [by rewrite Nat.add_0_r|].
  rewrite Nat.add_succ_r, representatives_S, IH by (intros; apply Hbound; [done|lia]).
  case_decide as Hown; [|by rewrite app_nil_r].
  apply Hbound in Hown; lia.
Qed.

Lemma keep_sublist dm n (l : list Vector3) :
  (∀ k, own dm k → (k < n)%nat → (k < length l)%nat) → keep dm n l `sublist_of` l.
Proof.
  intros Hbound. rewrite <-(fmap_lookup_total_seq l) at 2. unfold keep.
  apply fmap_sublist.
  destruct (decide (n ≤ length l)%nat) as [Hle|Hgt].
  - transitivity (seq 0 n); [apply sublist_filter|].
    replace (length l) with (n + (length l - n))%nat by lia.
    rewrite seq_app. by apply sublist_inserts_r.
  - replace n with (length l + (n - length l))%nat by lia.
    rewrite representatives_beyond; [apply sublist_filter|].
    intros k Hown Hk. apply Hbound; [done|lia].
Qed.

Lemma short_normals_representable : representable short_normals_mesh.
Proof. split; [repeat constructor|split; vm_compute; discriminate]. Qed.

Lemma short_normals_in_domain : in_domain short_normals_mesh.
Proof.
  split; [done|]. split.
  - repeat apply Forall_cons_2; [|apply Forall_nil_2]. unfold corner_ok, size. simpl. lia.
  - unfold normals_cover. repeat apply Forall_cons_2; [..|apply Forall_nil_2]; cbv; lia.
Qed.

Lemma remap_of_eq_iff vs i j v w :
  Forall is_point vs → vs !! i = Some v → vs !! j = Some w →
  remap_of (duplicates_of vs) !! i = remap_of (duplicates_of vs) !! j ↔
  Vector3_eq v w = true.
Proof.
  intros Hpts Hi Hj.
  destruct (vertex_facts _ i v Hpts Hi) as (_&_&(v'&Hv'&Hvv)&Hvown&_&->&_).
  destruct (vertex_facts _ j w Hpts Hj) as (_&_&(w'&Hw'&Hww)&Hwown&_&->&_).
  split.
  - intros Heq. injection Heq as Heq. apply Nat2Z.inj, rank_inj in Heq; [|done..].
    rewrite Heq in Hv'. simplify_eq.
    rewrite Vector3_eq_sym in Hvv. by eapply Vector3_eq_trans.
  - intros Heq. by rewrite (first_index_congr v w).
Qed.

Lemma coeff_renumber remap t j :
  coeff (renumber remap t) j = remap !!! Z.to_nat (coeff t j).
Proof. unfold coeff, renumber. simpl. by repeat case_match. Qed.

(** The compacted mesh of a mesh in the domain meets the invariants. *)
Lemma compacted_in_domain mesh :
  representable mesh → in_domain mesh →
  mesh_inv (compacted mesh) ∧ representable (compacted mesh) ∧
  vertices (compacted mesh) ≠ [].
Proof.
  intros [Hpts Hfits] (Hne&Hcorners&_).
  set (mesh0 := mkTriangleMesh (vertices mesh) (vertices mesh) (m_indices mesh)).
  destruct (compacted_admissible mesh0) as ([_ Hinv]&[Hpts' Hfits']&Hne');
    [by split|by split|done|].
  split; [split|split; [split|]]; try done.
  simpl. by rewrite !length_keep.
Qed.

(** * Further properties of the deduplicator *)

(** X1.  The domain of [removeDuplicates].  On a representable mesh, and
    for every conforming sort and schedule, the call has a result exactly
    when the mesh has at least one vertex, every triangle corner names a
    vertex, and the first vertex of every position has a normal; in every
    other case one of its unchecked element accesses is out of range. *)
Theorem removeDuplicates_defined_iff srt sched mesh vertexMap :
  sort_contract srt → schedule_contract sched → representable mesh →
  is_Some (removeDuplicates srt sched mesh vertexMap) ↔ in_domain mesh.
Proof.
  intros Hsrt Hsched Hrep. split.
  - intros [res Hres]. destruct (in_domain_decide mesh) as [|Hout]; [done|].
    by rewrite removeDuplicates_outside in Hres.
  - intros Hin. rewrite removeDuplicates_inside by done. eauto.
Qed.

Lemma removeDuplicates_defined_iff_witness :
  is_Some (removeDuplicates insertion_sort sequential short_normals_mesh []) ↔
  in_domain short_normals_mesh.
Proof.
  apply removeDuplicates_defined_iff;
    [apply insertion_sort_contract|apply sequential_contract
    |apply short_normals_representable].
Defined.

(** X2.  The flag of [findDuplicates].  On a representable mesh with at
    least one vertex the returned flag is [true] exactly when two different
    vertices have positions that compare equal with [==]. *)
Theorem flag_iff_equal_pair srt sched mesh :
  sort_contract srt → schedule_contract sched →
  representable mesh → vertices mesh ≠ [] →
  ∃ has dm,
    findDuplicates srt sched mesh = Some (has, dm) ∧
    (has = true ↔
     ∃ i j v w, i ≠ j ∧ vertices mesh !! i = Some v ∧ vertices mesh !! j = Some w ∧
                Vector3_eq v w = true).
Proof.
  intros Hsrt Hsched [Hpts [Hnv Hnt]] Hne.
  exists (has_duplicates (vertices mesh)), (duplicates_of (vertices mesh)).
  split; [by apply findDuplicates_run|by apply has_duplicates_pair].
Qed.

Lemma flag_iff_equal_pair_witness :
  ∃ has dm,
    findDuplicates insertion_sort sequential scenario_mesh = Some (has, dm) ∧
    (has = true ↔
     ∃ i j v w, i ≠ j ∧ vertices scenario_mesh !! i = Some v ∧
                vertices scenario_mesh !! j = Some w ∧ Vector3_eq v w = true).
Proof.
  apply flag_iff_equal_pair;
    [apply insertion_sort_contract|apply sequential_contract
    |apply scenario_representable|apply scenario_nonempty].
Defined.

(** X3.  [removeDuplicates] merges exactly the equal positions: two
    vertices get the same entry of the vertex remap if and only if their
    positions compare equal with [==].  Vertices at different positions are
    never merged. *)
Theorem merged_iff_equal srt sched mesh vertexMap :
  sort_contract srt → schedule_contract sched →
  representable mesh → in_domain mesh →
  ∃ mesh' remap,
    removeDuplicates srt sched mesh vertexMap = Some (mesh', remap) ∧
    ∀ i j v w, vertices mesh !! i = Some v → vertices mesh !! j = Some w →
      (remap !! i = remap !! j ↔ Vector3_eq v w = true).
Proof.
  intros Hsrt Hsched Hrep Hin. eexists _, _.
  split; [by apply removeDuplicates_inside|].
  destruct Hrep as [Hpts _]. intros i j v w Hi Hj. by apply remap_of_eq_iff.
Qed.

Lemma merged_iff_equal_witness :
  ∃ mesh' remap,
    removeDuplicates insertion_sort sequential short_normals_mesh [] = Some (mesh', remap) ∧
    ∀ i j v w, vertices short_normals_mesh !! i = Some v →
      vertices short_normals_mesh !! j = Some w →
      (remap !! i = remap !! j ↔ Vector3_eq v w = true).
Proof.
  apply merged_iff_equal;
    [apply insertion_sort_contract|apply sequential_contract
    |apply short_normals_representable|apply short_normals_in_domain].
Defined.

(** X4.  [removeDuplicates] keeps the order of the vertices.  The compacted
    vertex and normal arrays are the original ones with entries left out;
    no vertex gets a remap entry above its own index; and of two first
    vertices of their positions the earlier one gets the smaller entry. *)
Theorem order_preserved srt sched mesh vertexMap :
  sort_contract srt → schedule_contract sched →
  representable mesh → in_domain mesh →
  ∃ mesh' remap,
    removeDuplicates srt sched mesh vertexMap = Some (mesh', remap) ∧
    vertices mesh' `sublist_of` vertices mesh ∧
    normals mesh' `sublist_of` normals mesh ∧
    (∀ i r, remap !! i = Some r → (r ≤ Z.of_nat i)%Z) ∧
    (∀ i j v w ri rj,
       vertices mesh !! i = Some v → first_index v (vertices mesh) = i →
       vertices mesh !! j = Some w → first_index w (vertices mesh) = j →
       remap !! i = Some ri → remap !! j = Some rj →
       (i < j)%nat → (ri < rj)%Z).
Proof.
  intros Hsrt Hsched Hrep Hin. eexists _, _.
  split; [by apply removeDuplicates_inside|].
  destruct Hrep as [Hpts _]. destruct Hin as (_&_&Hcover). simpl.
  set (dm := duplicates_of (vertices mesh)).
  repeat split.
  - apply keep_sublist. auto.
  - apply keep_sublist. intros k Hown _. by apply cover_own.
  - intros i r Hr.
    destruct (lookup_lt_is_Some_2 (vertices mesh) i) as [v Hv].
    { apply lookup_lt_Some in Hr.
      unfold dm in Hr. by rewrite length_remap_of, length_duplicates_of in Hr. }
    destruct (vertex_facts _ i v Hpts Hv) as (Hle&_&_&_&_&Hremap&_).
    fold dm in Hremap. simplify_eq.
    pose proof (rank_le dm (first_index v (vertices mesh))). lia.
  - intros i j v w ri rj Hi Hfi Hj Hfj Hri Hrj Hij.
    destruct (vertex_facts _ i v Hpts Hi) as (_&_&_&Hvown&_&Hvr&_).
    destruct (vertex_facts _ j w Hpts Hj) as (_&_&_&Hwown&_&Hwr&_).
    fold dm in Hvr, Hwr, Hvown, Hwown.
    rewrite Hfi in Hvr, Hvown. rewrite Hfj in Hwr.
    rewrite Hvr in Hri. rewrite Hwr in Hrj. injection Hri as <-. injection Hrj as <-.
    pose proof (rank_lt dm j i Hvown Hij). lia.
Qed.

Lemma order_preserved_witness :
  ∃ mesh' remap,
    removeDuplicates insertion_sort sequential short_normals_mesh [] = Some (mesh', remap) ∧
    vertices mesh' `sublist_of` vertices short_normals_mesh ∧
    normals mesh' `sublist_of` normals short_normals_mesh ∧
    (∀ i r, remap !! i = Some r → (r ≤ Z.of_nat i)%Z) ∧
    (∀ i j v w ri rj,
       vertices short_normals_mesh !! i = Some v →
       first_index v (vertices short_normals_mesh) = i →
       vertices short_normals_mesh !! j = Some w →
       first_index w (vertices short_normals_mesh) = j →
       remap !! i = Some ri → remap !! j = Some rj →
       (i < j)%nat → (ri < rj)%Z).
Proof.
  apply order_preserved;
    [apply insertion_sort_contract|apply sequential_contract
    |apply short_normals_representable|apply short_normals_in_domain].
Defined.

(** X5.  The outcome of [removeDuplicates] on a representable mesh, a
    result or none, depends on the mesh alone: not on how [std::sort]
    treats ties, not on the schedule of the parallel loops, and not on what
    the vertex map held before the call. *)
Theorem removeDuplicates_independent srt srt' sched sched' mesh vertexMap vertexMap' :
  sort_contract srt → sort_contract srt' →
  schedule_contract sched → schedule_contract sched' →
  representable mesh →
  removeDuplicates srt sched mesh vertexMap =
  removeDuplicates srt' sched' mesh vertexMap'.
Proof.
  intros Hsrt Hsrt' Hsched Hsched' Hrep.
  destruct (in_domain_decide mesh) as [Hin|Hout].
  - by rewrite (removeDuplicates_inside srt sched),
      (removeDuplicates_inside srt' sched') by done.
  - by rewrite (removeDuplicates_outside srt sched),
      (removeDuplicates_outside srt' sched') by done.
Qed.

Lemma removeDuplicates_independent_witness :
  removeDuplicates insertion_sort sequential scenario_mesh [] =
  removeDuplicates insertion_sort_rev backwards scenario_mesh [7%Z; 7%Z].
Proof.
  apply removeDuplicates_independent;
    [apply insertion_sort_contract|apply insertion_sort_rev_contract
    |apply sequential_contract|apply backwards_contract
    |apply scenario_representable].
Defined.

(** X6.  [removeDuplicates] reads the normal of the first vertex of every
    position and no other: two meshes with the same vertices and triangles
    whose normal arrays agree at those vertices, whatever they hold
    elsewhere and however long they are, have the same outcome. *)
Theorem unread_normals_ignored srt sched mesh mesh2 vertexMap :
  sort_contract srt → schedule_contract sched → representable mesh →
  vertices mesh2 = vertices mesh → m_indices mesh2 = m_indices mesh →
  (∀ v, v ∈ vertices mesh →
     normals mesh2 !! first_index v (vertices mesh) =
     normals mesh !! first_index v (vertices mesh)) →
  removeDuplicates srt sched mesh2 vertexMap =
  removeDuplicates srt sched mesh vertexMap.
Proof.
  intros Hsrt Hsched Hrep Hvs Htris Hns.
  assert (representable mesh2) as Hrep2.
  { destruct Hrep as [Hpts Hfits]. split.
    - unfold all_points. by rewrite Hvs.
    - unfold fits_int. by rewrite Hvs, Htris. }
  assert (in_domain mesh2 ↔ in_domain mesh) as Hdom.
  { unfold in_domain, normals_cover. rewrite Hvs, Htris, !Forall_forall.
    split; intros (?&?&Hcover); (split; [done|]); (split; [done|]); intros v Hv;
      specialize (Hcover v Hv); specialize (Hns v Hv);
      apply lookup_lt_is_Some; apply lookup_lt_is_Some in Hcover;
      [by rewrite <-Hns|by rewrite Hns]. }
  destruct (in_domain_decide mesh) as [Hin|Hout].
  - rewrite !removeDuplicates_inside by (done || by apply Hdom).
    rewrite Hvs. do 2 f_equal. unfold compacted. rewrite Hvs, Htris. f_equal.
    apply keep_normals. intros k Hown _.
    apply own_first_index in Hown as (v&Hv&Hf).
    apply list_elem_of_lookup_2, Hns in Hv. rewrite Hf in Hv.
    by rewrite !list_lookup_total_alt, Hv.
  - rewrite !removeDuplicates_outside by (done || by rewrite Hdom). done.
Qed.

Lemma unread_normals_ignored_witness :
  removeDuplicates insertion_sort sequential renormalled_mesh [] =
  removeDuplicates insertion_sort sequential scenario_mesh [].
Proof.
  apply unread_normals_ignored;
    [apply insertion_sort_contract|apply sequential_contract
    |apply scenario_representable|reflexivity|reflexivity|].
  intros v Hv. simpl in Hv.
  repeat (apply elem_of_cons in Hv as [->|Hv]); [reflexivity..|].
  by apply elem_of_nil in Hv.
Defined.

(** X11.  [removeDuplicates] never removes a triangle, and it makes two
    corners of a triangle the same index exactly when the two corners were
    at positions that compare equal: a triangle with two such corners stays
    in the mesh as a degenerate one. *)
Theorem collapsed_corners srt sched mesh vertexMap :
  sort_contract srt → schedule_contract sched →
  representable mesh → in_domain mesh →
  ∃ mesh' remap,
    removeDuplicates srt sched mesh vertexMap = Some (mesh', remap) ∧
    length (m_indices mesh') = length (m_indices mesh) ∧
    ∀ k t t' a b v w,
      m_indices mesh !! k = Some t → m_indices mesh' !! k = Some t' →
      vec_at (vertices mesh) (coeff t a) = Some v →
      vec_at (vertices mesh) (coeff t b) = Some w →
      (coeff t' a = coeff t' b ↔ Vector3_eq v w = true).
Proof.
  intros Hsrt Hsched Hrep Hin. eexists _, _.
  split; [by apply removeDuplicates_inside|]. simpl.
  split; [by rewrite length_fmap|].
  destruct Hrep as [Hpts _]. intros k t t' a b v w Ht Ht' Hv Hw.
  rewrite list_lookup_fmap, Ht in Ht'. simpl in Ht'. injection Ht' as <-.
  rewrite !coeff_renumber.
  unfold vec_at in Hv, Hw. repeat case_decide; try done.
  set (remap := remap_of (duplicates_of (vertices mesh))).
  assert (∀ i u, vertices mesh !! i = Some u → remap !! i = Some (remap !!! i)) as Htotal.
  { intros i u Hi. apply list_lookup_lookup_total_lt.
    unfold remap. rewrite length_remap_of, length_duplicates_of.
    by eapply lookup_lt_Some. }
  rewrite <-(remap_of_eq_iff _ _ _ v w Hpts Hv Hw). fold remap.
  rewrite (Htotal _ _ Hv), (Htotal _ _ Hw). split; [by intros ->|by intros [= ->]].
Qed.

Lemma collapsed_corners_witness :
  ∃ mesh' remap,
    removeDuplicates insertion_sort sequential scenario_mesh [] = Some (mesh', remap) ∧
    length (m_indices mesh') = length (m_indices scenario_mesh) ∧
    ∀ k t t' a b v w,
      m_indices scenario_mesh !! k = Some t → m_indices mesh' !! k = Some t' →
      vec_at (vertices scenario_mesh) (coeff t a) = Some v →
      vec_at (vertices scenario_mesh) (coeff t b) = Some w →
      (coeff t' a = coeff t' b ↔ Vector3_eq v w = true).
Proof.
  apply collapsed_corners;
    [apply insertion_sort_contract|apply sequential_contract
    |apply scenario_representable
    |apply mesh_inv_in_domain;
       [apply scenario_inv|apply scenario_points|apply scenario_nonempty]].
Defined.

(** X12.  [removeDuplicates] leaves a mesh that meets the invariants, also
    when the mesh it was given did not: on every representable mesh in its
    domain, whatever the number of normals, the result has one normal per
    vertex, every corner of its triangles names one of its vertices, it is
    representable and has at least one vertex. *)
Theorem result_meets_invariants srt sched mesh vertexMap :
  sort_contract srt → schedule_contract sched →
  representable mesh → in_domain mesh →
  ∃ mesh' remap,
    removeDuplicates srt sched mesh vertexMap = Some (mesh', remap) ∧
    mesh_inv mesh' ∧ representable mesh' ∧ vertices mesh' ≠ [].
Proof.
  intros Hsrt Hsched Hrep Hin. eexists _, _.
  split; [by apply removeDuplicates_inside|]. by apply compacted_in_domain.
Qed.

Lemma result_meets_invariants_witness :
  ∃ mesh' remap,
    removeDuplicates insertion_sort sequential short_normals_mesh [] = Some (mesh', remap) ∧
    mesh_inv mesh' ∧ representable mesh' ∧ vertices mesh' ≠ [].
Proof.
  apply result_meets_invariants;
    [apply insertion_sort_contract|apply sequential_contract
    |apply short_normals_representable|apply short_normals_in_domain].
Defined.

(** * The frame buffer *)

Lemma for_each_faulting {S} (body : Z → S → option S) order i s :
  i ∈ order → (∀ t, body i t = None) → for_each order body s = None.
Proof.
  intros Hi Hfault. revert s.
  induction order as [|j order IH]; intros s; [by apply elem_of_nil in Hi|].
  simpl. apply elem_of_cons in Hi as [<-|Hi]; [by rewrite Hfault|].
  destruct (body j s); simpl; auto.
Qed.

Lemma length_coordinates tf V : length (coordinates tf V) = (3 * length V)%nat.
Proof.
  unfold coordinates. induction V as [|v V IH]; [done|].
  rewrite bind_cons, length_app, IH. simpl. lia.
Qed.

Lemma coordinates_lookup tf V k v :
  V !! k = Some v →
  coordinates tf V !! (3 * k)%nat = Some (tf (x v)) ∧
  coordinates tf V !! (3 * k + 1)%nat = Some (tf (y v)) ∧
  coordinates tf V !! (3 * k + 2)%nat = Some (tf (z v)).
Proof.
  unfold coordinates. revert k. induction V as [|u V IH]; intros k Hk; [done|].
  rewrite bind_cons. destruct k as [|k]; simplify_eq/=; [done|].
  replace (k + S (k + S (k + 0)))%nat with (S (S (3 * k)))%nat by lia.
  simpl. by apply IH.
Qed.

Lemma triples_eq {A} (l1 l2 : list A) n :
  length l1 = (3 * n)%nat → length l2 = (3 * n)%nat →
  (∀ k, (k < n)%nat →
     l1 !! (3 * k)%nat = l2 !! (3 * k)%nat ∧
     l1 !! (3 * k + 1)%nat = l2 !! (3 * k + 1)%nat ∧
     l1 !! (3 * k + 2)%nat = l2 !! (3 * k + 2)%nat) →
  l1 = l2.
Proof.
  intros H1 H2 Heq. apply list_eq. intros m.
  destruct (decide (m < 3 * n)%nat) as [Hlt|Hge].
  - pose proof (Nat.div_mod_eq m 3) as Hm.
    pose proof (Nat.mod_upper_bound m 3 ltac:(lia)) as Hr.
    destruct (Heq (m / 3)%nat ltac:(lia)) as (E0&E1&E2).
    destruct (m mod 3)%nat as [|[|[|r]]] eqn:Hmod; [| | |lia]; rewrite Hm.
    + by rewrite Nat.add_0_r.
    + done.
    + done.
  - rewrite !(proj2 (lookup_ge_None _ _)) by lia. done.
Qed.

(** The loop on a vertex array the [int] arithmetic can index. *)
Lemma fill_frame_run sched tf V :
  schedule_contract sched → (3 * size V ≤ INT_MAX + 1)%Z →
  fill_frame sched tf V = Some (coordinates tf V).
Proof.
  intros Hsched Hsmall. unfold fill_frame, parallel_for, size in *.
  assert (INT_MAX = 2147483647%Z) as Hmax by done.
  rewrite decide_True by lia. set (n := length V) in *.
  pose proof (Hsched (Z.of_nat n)) as Hperm.
  set (body := λ (i : Z) (vertices : list spec_float), _).
  set (I := λ (pre : list Z) (buf : list spec_float),
    length buf = (3 * n)%nat ∧
    ∀ k : nat, Z.of_nat k ∈ pre →
      buf !! (3 * k)%nat = coordinates tf V !! (3 * k)%nat ∧
      buf !! (3 * k + 1)%nat = coordinates tf V !! (3 * k + 1)%nat ∧
      buf !! (3 * k + 2)%nat = coordinates tf V !! (3 * k + 2)%nat).
  destruct (for_each_inv I body (sched (Z.of_nat n))
              (replicate (Z.to_nat (Z.of_nat n * 3)) (S754_zero false)))
    as (buf&->&Hlen&Hbuf).
  - split; [rewrite length_replicate; lia|]. by intros k ?%elem_of_nil.
  - intros p i q buf Horder [Hlen Hbuf].
    assert (i ∈ seqZ 0 (Z.of_nat n)) as Hi
      by (rewrite <-Hperm, Horder, elem_of_app, elem_of_cons; auto).
    apply elem_of_seqZ in Hi.
    destruct (Z_of_nat_complete i ltac:(lia)) as [k ->].
    destruct (lookup_lt_is_Some_2 V k ltac:(lia)) as [v Hv].
    destruct (coordinates_lookup tf V k v Hv) as (C0&C1&C2).
    exists (<[(3 * k + 2)%nat := tf (z v)]>
              (<[(3 * k + 1)%nat := tf (y v)]> (<[(3 * k)%nat := tf (x v)]> buf))).
    split.
    + unfold body, int_result. rewrite vec_at_nat, Hv.
      clear C0 C1 C2 Hbuf. remember (3 * k)%nat as a eqn:Ha.
      replace (3 * Z.of_nat k)%Z with (Z.of_nat a) by lia.
      rewrite !decide_True by lia. simpl.
      rewrite vec_set_nat by lia. simpl.
      replace (Z.of_nat a + 1)%Z with (Z.of_nat (a + 1)) by lia.
      rewrite !decide_True by lia. simpl.
      rewrite vec_set_nat by (rewrite length_insert; lia). simpl.
      replace (Z.of_nat a + 2)%Z with (Z.of_nat (a + 2)) by lia.
      rewrite vec_set_nat by (rewrite !length_insert; lia). done.
    + split; [by rewrite !length_insert|]. intros j Hj.
      destruct (decide (j = k)) as [->|Hjk].
      * rewrite C0, C1, C2. repeat split.
        -- rewrite !list_lookup_insert_ne by lia.
           rewrite list_lookup_insert_eq by lia. done.
        -- rewrite list_lookup_insert_ne by lia.
           rewrite list_lookup_insert_eq by (rewrite length_insert; lia). done.
        -- rewrite list_lookup_insert_eq by (rewrite !length_insert; lia). done.
      * rewrite !list_lookup_insert_ne by lia. apply Hbuf.
        apply elem_of_app in Hj as [Hj|Hj%list_elem_of_singleton]; [done|lia].
  - f_equal. apply (triples_eq _ _ n); [done|apply length_coordinates|].
    intros k Hk. apply Hbuf. rewrite Hperm. apply elem_of_seqZ. lia.
Qed.

(** The loop on a larger vertex array: the index of the last vertex
    overflows. *)
Lemma fill_frame_overflow sched tf V :
  schedule_contract sched → (INT_MAX + 1 < 3 * size V)%Z →
  fill_frame sched tf V = None.
Proof.
  intros Hsched Hlarge. unfold fill_frame, parallel_for.
  assert (INT_MAX = 2147483647%Z) as Hmax by done.
  case_decide as Hn; [|done].
  apply (for_each_faulting _ _ (size V - 1)%Z).
  - rewrite (Hsched (size V)). apply elem_of_seqZ. lia.
  - intros buf. unfold int_result.
    repeat (case_decide || (destruct (vec_at _ _); simpl) || (destruct (vec_set _ _ _); simpl));
      (done || lia).
Qed.

(** X7.  The frame buffer filled by [onFrameComplete].  Whatever the
    schedule of the parallel loop, the buffer holds the three coordinates of
    every vertex one after the other when three times the vertex count is
    at most 2^31; for a larger vertex array the [int] expression [3*i+2]
    overflows and the loop has no defined result. *)
Theorem fill_frame_outcome sched to_float V :
  schedule_contract sched →
  fill_frame sched to_float V =
    if decide (3 * size V ≤ INT_MAX + 1)%Z
    then Some (v ← V; [to_float (x v); to_float (y v); to_float (z v)])
    else None.
Proof.
  intros Hsched. case_decide.
  - by apply fill_frame_run.
  - apply fill_frame_overflow; [done|lia].
Qed.

Lemma fill_frame_outcome_witness :
  fill_frame backwards id (vertices scenario_mesh) =
    if decide (3 * size (vertices scenario_mesh) ≤ INT_MAX + 1)%Z
    then Some (v ← vertices scenario_mesh; [id (x v); id (y v); id (z v)])
    else None.
Proof. apply fill_frame_outcome, backwards_contract. Defined.

(** X8.  The frame [onFrameComplete] hands to the point cache file,
    composed with the deduplication before it.  On a representable mesh
    inside the domain of [removeDuplicates] whose vertex count, times
    three, is at most 2^31, the frame has three floats per compacted vertex,
    and the position of every vertex [i] of the mesh is found in it at
    [3 * dupliMap[i]]: the coordinates there are those of a position that
    compares equal to that of [i]. *)
Theorem frame_of_positions srt sched to_float mesh :
  sort_contract srt → schedule_contract sched →
  representable mesh → in_domain mesh →
  (3 * size (vertices mesh) ≤ INT_MAX + 1)%Z →
  ∃ triMesh dupliMap frame,
    frame_of sched to_float srt mesh = Some (triMesh, dupliMap, frame) ∧
    removeDuplicates srt sched mesh [] = Some (triMesh, dupliMap) ∧
    length frame = (3 * length (vertices triMesh))%nat ∧
    ∀ i v, vertices mesh !! i = Some v →
      ∃ (r : nat) w,
        dupliMap !! i = Some (Z.of_nat r) ∧ Vector3_eq w v = true ∧
        frame !! (3 * r)%nat = Some (to_float (x w)) ∧
        frame !! (3 * r + 1)%nat = Some (to_float (y w)) ∧
        frame !! (3 * r + 2)%nat = Some (to_float (z w)).
Proof.
  intros Hsrt Hsched Hrep Hin Hsmall.
  pose proof (removeDuplicates_inside srt sched mesh [] Hsrt Hsched Hrep Hin) as Hrun.
  set (dm := duplicates_of (vertices mesh)) in *.
  set (n := length (vertices mesh)).
  assert (fill_frame sched to_float (vertices (compacted mesh)) =
          Some (coordinates to_float (vertices (compacted mesh)))) as Hfill.
  { apply fill_frame_run; [done|]. unfold size in *. simpl. rewrite length_keep.
    pose proof (rank_le (duplicates_of (vertices mesh)) (length (vertices mesh))). lia. }
  eexists _, _, _. split; [|split; [exact Hrun|split]].
  - unfold frame_of. rewrite Hrun. simpl. simpl in Hfill. by rewrite Hfill.
  - apply length_coordinates.
  - intros i v Hi. destruct Hrep as [Hpts _].
    destruct (vertex_facts _ i v Hpts Hi) as (_&Hf&(w&Hw&Hwv)&Hown&_&Hremap&_).
    exists (rank dm (first_index v (vertices mesh))), w.
    split; [done|]. split; [done|].
    apply coordinates_lookup. simpl. fold dm n.
    rewrite (keep_lookup dm n _ _ Hown Hf).
    by rewrite (list_lookup_total_correct _ _ _ Hw).
Qed.

Lemma frame_of_positions_witness :
  ∃ triMesh dupliMap frame,
    frame_of sequential id insertion_sort short_normals_mesh =
      Some (triMesh, dupliMap, frame) ∧
    removeDuplicates insertion_sort sequential short_normals_mesh [] =
      Some (triMesh, dupliMap) ∧
    length frame = (3 * length (vertices triMesh))%nat ∧
    ∀ i v, vertices short_normals_mesh !! i = Some v →
      ∃ (r : nat) w,
        dupliMap !! i = Some (Z.of_nat r) ∧ Vector3_eq w v = true ∧
        frame !! (3 * r)%nat = Some (id (x w)) ∧
        frame !! (3 * r + 1)%nat = Some (id (y w)) ∧
        frame !! (3 * r + 2)%nat = Some (id (z w)).
Proof.
  apply frame_of_positions;
    [apply insertion_sort_contract|apply sequential_contract
    |apply short_normals_representable|apply short_normals_in_domain
    |vm_compute; discriminate].
Defined.

(** * The names of the exported files *)

Lemma pretty_N_go_head n s :
  (0 < n)%N → ∃ c s', pretty_N_go n s = String c s' ∧ c ≠ "0"%char.
Proof.
  revert s. induction (N.lt_wf_0 n) as [n _ IH]; intros s Hn.
  rewrite pretty_N_go_step by done.
  destruct (decide (n `div` 10 = 0)%N) as [Hdiv|Hdiv].
  - rewrite Hdiv, pretty_N_go_0. eexists _, _. split; [done|].
    apply N.div_small_iff in Hdiv; [|done]. rewrite N.mod_small by done.
    assert (n = 1 ∨ n = 2 ∨ n = 3 ∨ n = 4 ∨ n = 5 ∨ n = 6 ∨ n = 7 ∨ n = 8 ∨ n = 9)%N
      as Hcases by lia.
    repeat (destruct Hcases as [->|Hcases]; [done|]). by subst.
  - apply IH; [apply N.div_lt; lia|by apply N.neq_0_lt_0].
Qed.

(** The decimal text of an integer is ["0"], or starts with a character
    other than ['0']. *)
Lemma pretty_Z_head (count : Z) :
  pretty count = "0" ∨ ∃ c s, pretty count = String c s ∧ c ≠ "0"%char.
Proof.
  destruct count as [|p|p]; [by left|right..].
  - unfold pretty, pretty_Z, pretty, pretty_positive, pretty, pretty_N.
    rewrite decide_False by done. by apply pretty_N_go_head.
  - by eexists _, _.
Qed.

Lemma strip_zeros_fill n s : strip_zeros (fill_string n "0" +:+ s) = strip_zeros s.
Proof. induction n as [|n IH]; [done|]. simpl. rewrite ?decide_True by done. done. Qed.

Lemma strip_zeros_pretty (count : Z) :
  pretty count = "0" ∧ strip_zeros (pretty count) = "" ∨
  strip_zeros (pretty count) = pretty count ∧ pretty count ≠ "".
Proof.
  destruct (pretty_Z_head count) as [->|(c&s&->&Hc)]; [by left|right].
  simpl. by rewrite decide_False.
Qed.

Lemma padded_count_inj width (a b : Z) :
  padded width "0" (pretty a) = padded width "0" (pretty b) → a = b.
Proof.
  unfold padded. intros Heq. apply (f_equal strip_zeros) in Heq.
  rewrite !strip_zeros_fill in Heq. apply (inj pretty).
  destruct (strip_zeros_pretty a) as [[Ha Ha']|[Ha Ha']],
    (strip_zeros_pretty b) as [[Hb Hb']|[Hb Hb']]; congruence.
Qed.







(** X9.  The file names of [exportCurrentMesh] and [onFrameComplete] tell
    the frames apart: for one export folder, and one render object, two
    frame counts give the same file name only when they are the same
    count. *)
Theorem filename_tells_frames_apart folder roName (a b : Z) :
  (exportCurrentMesh_filename folder a = exportCurrentMesh_filename folder b ↔ a = b) ∧
  (onFrameComplete_filename folder roName a = onFrameComplete_filename folder roName b
   ↔ a = b).
Proof.
  unfold exportCurrentMesh_filename, onFrameComplete_filename.
  split; (split; [|by intros ->]); intros Heq.
  - do 2 apply (inj (String.app _)) in Heq. by eapply padded_count_inj.
  - do 4 apply (inj (String.app _)) in Heq. by eapply padded_count_inj.
Qed.


